(** * Voter registry: search, scope resolution, suggestions, rate limiting
      and the status audit trail

    A shallow embedding of [apps/voters/models.py], [apps/voters/views.py],
    [apps/voters/public_views.py], of the management commands
    [import_voters_all.py] and [update_search_text.py], and of the page list
    of [apps/voters/templatetags/pagination_tags.py].

    Conventions of the embedding.
    - A Python [str] is a [string]; one [ascii] is one character.  Case
      mapping, digits and white space are those of the ASCII repertoire;
      characters above 127 are carried through unchanged (they have no case,
      as is the case for Bangla text).
    - A nullable column is an [option]; Python's [x or ''] is [or_empty].
    - A table is the list of its rows; a queryset is a list of rows.
    - A Django field lookup ([__icontains], [__istartswith], ...) is a
      boolean function on the column value; [NULL] never matches.
    - Integer request parameters ([limit], category ids, [pk]) are taken
      after conversion, as [Z].
    - The clock and the cache of the rate limiter are explicit; so is the
      directory tree that the import command reads.
    - Column length limits are not enforced, as under SQLite. *)

From Stdlib Require Import ZArith NArith List String Ascii Bool Lia.
From Stdlib Require Import Sorting.Sorted Sorting.Permutation.
From stdpp Require Import gmap strings.
Import ListNotations.

Local Open Scope string_scope.
Local Open Scope list_scope.
Local Open Scope Z_scope.

(** ** Python [str] operations *)

Module Text.

Definition is_upper (c : ascii) : bool :=
  let n := N_of_ascii c in (65 <=? n)%N && (n <=? 90)%N.

Definition lower_char (c : ascii) : ascii :=
  if is_upper c then ascii_of_N (N_of_ascii c + 32) else c.

(** [s.lower()] *)
Fixpoint lower (s : string) : string :=
  match s with
  | EmptyString => EmptyString
  | String c s' => String (lower_char c) (lower s')
  end.

(** [s.startswith(p)] *)
Fixpoint startswith (s p : string) {struct p} : bool :=
  match p, s with
  | EmptyString, _ => true
  | String _ _, EmptyString => false
  | String b p', String a s' => Ascii.eqb a b && startswith s' p'
  end.

(** [sub in s] *)
Fixpoint contains (s sub : string) : bool :=
  startswith s sub ||
  match s with
  | EmptyString => false
  | String _ s' => contains s' sub
  end.

Definition is_digit_char (c : ascii) : bool :=
  let n := N_of_ascii c in (48 <=? n)%N && (n <=? 57)%N.

Fixpoint all_digits (s : string) : bool :=
  match s with
  | EmptyString => true
  | String c s' => is_digit_char c && all_digits s'
  end.

(** [s.isdigit()]: at least one character, and all of them digits. *)
Definition isdigit (s : string) : bool :=
  match s with
  | EmptyString => false
  | _ => all_digits s
  end.

(** White space as [str.strip()] sees it: TAB, LF, VT, FF, CR,
    FS, GS, RS, US and the space. *)
Definition is_space (c : ascii) : bool :=
  let n := N_of_ascii c in
  ((9 <=? n)%N && (n <=? 13)%N) || ((28 <=? n)%N && (n <=? 32)%N).

Fixpoint lstrip (s : string) : string :=
  match s with
  | EmptyString => EmptyString
  | String c s' => if is_space c then lstrip s' else s
  end.

Fixpoint rstrip (s : string) : string :=
  match s with
  | EmptyString => EmptyString
  | String c s' =>
      match rstrip s' with
      | EmptyString => if is_space c then EmptyString else String c EmptyString
      | r => String c r
      end
  end.

(** [s.strip()] *)
Definition strip (s : string) : string := rstrip (lstrip s).

(** Truth value of a string: [bool(s)]. *)
Definition truthy (s : string) : bool :=
  match s with EmptyString => false | _ => true end.

(** [x or ''] for a nullable string. *)
Definition or_empty (x : option string) : string :=
  match x with Some s => s | None => "" end.

(** [' '.join(parts)] *)
Fixpoint join (sep : string) (parts : list string) : string :=
  match parts with
  | [] => ""
  | [p] => p
  | p :: rest => p +:+ sep +:+ join sep rest
  end.

(** [s.split(',')[0]]: the text before the first comma. *)
Fixpoint before_comma (s : string) : string :=
  match s with
  | EmptyString => EmptyString
  | String c s' => if Ascii.eqb c "," then EmptyString else String c (before_comma s')
  end.

(** Code-point order on strings, the order of Python's [<=] on [str]. *)
Definition str_le (a b : string) : bool := String.leb a b.

(** The double-quote character. *)
Definition double_quote : ascii := Eval cbv in ascii_of_nat 34.

End Text.

(** ** [models.py] *)

Module models.
Import Text.

(** [created_at], [updated_at] (and [extra_data] of [Voter]) are not read by
    the code modelled here and are left out of the records. *)
Record Category := {
  cat_id : Z;
  cat_name : string;
  code : option string;
  parent : option Z;          (* parent_id *)
  full_path : string;
  has_excel : bool;
  level : nat
}.

Record Voter := {
  id : Z;
  category_id : Z;
  serial : option string;
  name : option string;
  voter_no : option string;
  father : option string;
  mother : option string;
  profession : option string;
  dob : option string;
  address : option string;
  gender : string;
  status : string;
  source_file : string;
  search_text : option string
}.

Definition STATUS_CHOICES : list (string * string) :=
  [("present", "Present"); ("absent", "Absent"); ("dead", "Dead")].

(** [Voter.build_search_text] *)
Definition build_search_text (self : Voter) : string :=
  let parts :=
    [ or_empty (serial self); or_empty (name self); or_empty (father self);
      or_empty (mother self); or_empty (address self);
      or_empty (voter_no self); or_empty (profession self) ] in
  lower (join " " (List.filter truthy parts)).

Definition set_search_text (v : Voter) (t : option string) : Voter :=
  {| id := id v; category_id := category_id v; serial := serial v;
     name := name v; voter_no := voter_no v; father := father v;
     mother := mother v; profession := profession v; dob := dob v;
     address := address v; gender := gender v; status := status v;
     source_file := source_file v; search_text := t |}.

Definition set_status (v : Voter) (s : string) : Voter :=
  {| id := id v; category_id := category_id v; serial := serial v;
     name := name v; voter_no := voter_no v; father := father v;
     mother := mother v; profession := profession v; dob := dob v;
     address := address v; gender := gender v; status := s;
     source_file := source_file v; search_text := search_text v |}.

Definition set_has_excel (c : Category) (b : bool) : Category :=
  {| cat_id := cat_id c; cat_name := cat_name c; code := code c;
     parent := parent c; full_path := full_path c; has_excel := b;
     level := level c |}.

(** [Category.get_ancestors]: the loop follows the parent links, putting each
    row in front of those found before.  [current] is the key of the row to
    fetch next; a key without a row is [DoesNotExist] ([None]), and so is a
    loop that has not ended after [fuel] rounds. *)
Fixpoint ancestors_loop (fuel : nat) (cats : list Category) (current : option Z)
    (ancestors : list Category) : option (list Category) :=
  match current with
  | None => Some ancestors
  | Some pk =>
      match fuel with
      | O => None
      | S fuel' =>
          match List.find (fun c => cat_id c =? pk) cats with
          | None => None
          | Some row => ancestors_loop fuel' cats (parent row) (row :: ancestors)
          end
      end
  end.

Definition get_ancestors (fuel : nat) (cats : list Category) (self : Category)
  : option (list Category) :=
  ancestors_loop fuel cats (parent self) [].

(** [super().save()]: write the whole row, over the row of the same primary
    key when there is one. *)
Fixpoint write_row (table : list Voter) (v : Voter) : list Voter :=
  match table with
  | [] => [v]
  | r :: rest => if id r =? id v then v :: rest else r :: write_row rest v
  end.

(** [Voter.save]: [search_text] is rebuilt, then the row is written. *)
Definition save (table : list Voter) (self : Voter) : list Voter :=
  write_row table (set_search_text self (Some (build_search_text self))).

Record VoterStatusAudit := {
  audit_voter : Z;                 (* voter_id *)
  changed_by : option Z;           (* user id *)
  old_status : string;
  new_status : string;
  remarks : option string;
  changed_at : Z;
  ip_address : option string
}.

End models.

(** ** The ORM operations the views use *)

Module orm.
Import Text models.

(** [order_by]: a stable insertion sort for a boolean order.  Rows that the
    order does not separate keep their table order. *)
Fixpoint insert_sorted {A} (le : A -> A -> bool) (x : A) (l : list A) : list A :=
  match l with
  | [] => [x]
  | y :: l' => if le x y then x :: l else y :: insert_sorted le x l'
  end.

Definition order_by {A} (le : A -> A -> bool) (l : list A) : list A :=
  fold_right (insert_sorted le) [] l.

(** A nullable text column in ascending order: [NULL] first. *)
Definition opt_le (a b : option string) : bool :=
  match a, b with
  | None, _ => true
  | Some _, None => false
  | Some x, Some y => str_le x y
  end.

(** Field lookups on a nullable text column. *)
Definition exact (col : option string) (q : string) : bool :=
  match col with Some s => String.eqb s q | None => false end.

Definition startswith_ (col : option string) (q : string) : bool :=
  match col with Some s => startswith s q | None => false end.

Definition iexact (col : option string) (q : string) : bool :=
  match col with Some s => String.eqb (lower s) (lower q) | None => false end.

Definition istartswith (col : option string) (q : string) : bool :=
  match col with Some s => startswith (lower s) (lower q) | None => false end.

Definition icontains (col : option string) (q : string) : bool :=
  match col with Some s => contains (lower s) (lower q) | None => false end.

(** [qs[:limit]]; a negative bound is refused by the ORM ([None]). *)
Definition slice {A} (qs : list A) (limit : Z) : option (list A) :=
  if limit <? 0 then None else Some (firstn (Z.to_nat limit) qs).

(** [.distinct()] on a list of values: the first occurrence of each. *)
Fixpoint distinct (vals : list (option string)) : list (option string) :=
  match vals with
  | [] => []
  | x :: rest =>
      x :: List.filter (fun y => negb (bool_decide (y = x))) (distinct rest)
  end.

(** [Category.objects.filter(parent=...)] and [category.children], in the
    model's default ordering ([Meta.ordering = ['full_path']]). *)
Definition children_of (cats : list Category) (pk : Z) : list Category :=
  order_by (fun a b => str_le (full_path a) (full_path b))
    (List.filter (fun c => match parent c with Some p => p =? pk | None => false end) cats).

(** [Category.objects.filter(id=pk).first()] and [Category.objects.get(id=pk)];
    [None] is the missing row ([DoesNotExist]). *)
Definition category_by_id (cats : list Category) (pk : Z) : option Category :=
  List.find (fun c => cat_id c =? pk) cats.

(** [category_id__in=ids] *)
Definition category_id__in (ids : list Z) (v : Voter) : bool :=
  existsb (Z.eqb (category_id v)) ids.

(** [get_object_or_404(Voter, pk=pk)]; [None] is the 404. *)
Definition voter_by_pk (voters : list Voter) (pk : Z) : option Voter :=
  List.find (fun v => id v =? pk) voters.

(** [voter.save(update_fields=['status'])]: only the status column of the
    stored row is written. *)
Definition save_status (table : list Voter) (self : Voter) : list Voter :=
  map (fun r => if id r =? id self then set_status r (status self) else r) table.

Definition next_id (table : list Voter) : Z :=
  fold_right (fun r m => Z.max (id r + 1) m) 1 table.

Definition with_id (v : Voter) (pk : Z) : Voter :=
  {| id := pk; category_id := category_id v; serial := serial v;
     name := name v; voter_no := voter_no v; father := father v;
     mother := mother v; profession := profession v; dob := dob v;
     address := address v; gender := gender v; status := status v;
     source_file := source_file v; search_text := search_text v |}.

(** [Voter.objects.bulk_create(objs)]: the rows are inserted as they are,
    with fresh primary keys; [Voter.save] is not called. *)
Fixpoint bulk_create (table : list Voter) (objs : list Voter) : list Voter :=
  match objs with
  | [] => table
  | o :: rest => bulk_create (table ++ [with_id o (next_id table)]) rest
  end.

(** The primary key of the next category row: above every key of the table. *)
Definition next_category_id (cats : list Category) : Z :=
  fold_right (fun r m => Z.max (cat_id r + 1) m) 1 cats.

(** [Category.objects.get_or_create(full_path=..., defaults={...})]: the row
    with that [full_path] when there is exactly one, a new row built from the
    defaults when there is none; with several such rows the call raises
    [MultipleObjectsReturned] ([None]).  The flag tells whether a row was
    created. *)
Definition get_or_create (cats : list Category) (full_path_ name_ : string)
    (code_ : option string) (parent_ : option Category) (level_ : nat)
  : option (Category * bool * list Category) :=
  match List.filter (fun c => String.eqb (full_path c) full_path_) cats with
  | [] =>
      let category :=
        {| cat_id := next_category_id cats; cat_name := name_; code := code_;
           parent := option_map cat_id parent_; full_path := full_path_;
           has_excel := false; level := level_ |} in
      Some (category, true, cats ++ [category])
  | [category] => Some (category, false, cats)
  | _ => None
  end.

(** [category.save(update_fields=['has_excel'])]: only that column of the
    stored row is written. *)
Definition save_has_excel (cats : list Category) (self : Category) : list Category :=
  map (fun r => if cat_id r =? cat_id self then set_has_excel r (has_excel self) else r) cats.

(** The cache behind [django.core.cache.cache]: a value and the time at
    which it expires, per key. *)
Definition cache_get (c : gmap string (Z * Z)) (now : Z) (key : string) (default : Z) : Z :=
  match c !! key with
  | Some (v, expires) => if now <? expires then v else default
  | None => default
  end.

Definition cache_set (c : gmap string (Z * Z)) (now : Z) (key : string) (v timeout : Z)
  : gmap string (Z * Z) :=
  <[key := (v, now + timeout)]> c.

End orm.

(** ** [views.py] *)

Module views.
Import Text models orm.

(** The entries of [request.META] that the views read. *)
Record Meta := {
  HTTP_X_FORWARDED_FOR : option string;
  REMOTE_ADDR : option string
}.

(** A request: its [META] and the parameters of the view it is sent to. *)
Record Request (P : Type) := {
  META : Meta;
  params : P
}.
Arguments META {P} _.
Arguments params {P} _.

(** What [rate_limit]'s wrapper returns: the 429 response with its
    [retry_after], or what the view returned. *)
Inductive Limited (R : Type) : Type :=
| TooManyRequests (retry_after : Z)
| Passed (response : R).
Arguments TooManyRequests {R} _.
Arguments Passed {R} _.

(** [rate_limit(requests_per_minute)(view_func)(request)], with the clock
    and the cache made explicit. *)
Definition rate_limit {P R} (requests_per_minute : Z) (view_name : string)
    (view_func : Request P -> R)
    (now : Z) (cache : gmap string (Z * Z)) (request : Request P)
  : Limited R * gmap string (Z * Z) :=
  let x_forwarded_for := HTTP_X_FORWARDED_FOR (META request) in
  let ip :=
    match x_forwarded_for with
    | Some x =>
        if truthy x then strip (before_comma x)
        else match REMOTE_ADDR (META request) with Some a => a | None => "unknown" end
    | None => match REMOTE_ADDR (META request) with Some a => a | None => "unknown" end
    end in
  let cache_key := "rate_limit:" +:+ view_name +:+ ":" +:+ ip in
  let request_count := cache_get cache now cache_key 0 in
  if request_count >=? requests_per_minute then
    (TooManyRequests 60, cache)
  else
    let cache' := cache_set cache now cache_key (request_count + 1) 60 in
    (Passed (view_func request), cache').

(** [get_client_ip] *)
Definition get_client_ip (meta : Meta) : string :=
  match HTTP_X_FORWARDED_FOR meta with
  | Some x =>
      if truthy x then strip (before_comma x)
      else match REMOTE_ADDR meta with Some a => a | None => "unknown" end
  | None => match REMOTE_ADDR meta with Some a => a | None => "unknown" end
  end.

(** The loop of [get_category_descendants]:
    [for child in children: descendants.append(child.id);
     descendants.extend(get_category_descendants(child))]. *)
Fixpoint descendants_loop (recur : Category -> option (list Z))
    (children : list Category) (descendants : list Z) : option (list Z) :=
  match children with
  | [] => Some descendants
  | child :: rest =>
      match recur child with
      | Some sub => descendants_loop recur rest (descendants ++ [cat_id child] ++ sub)
      | None => None
      end
  end.

(** [get_category_descendants].  The recursion of the source follows the
    child links and is not structural; [fuel] bounds its depth and [None] is
    a traversal that did not finish within it.  (The interpreter's own
    recursion limit is not modelled.) *)
Fixpoint get_category_descendants (fuel : nat) (cats : list Category)
    (category : Category) : option (list Z) :=
  match fuel with
  | O => None
  | S fuel' =>
      let children := children_of cats (cat_id category) in
      descendants_loop (get_category_descendants fuel' cats) children []
  end.

(** [descendant_ids = get_category_descendants(category);
     descendant_ids.append(category.id)], the scope of [voter_list] and
    [category_detail]. *)
Definition descendant_ids (fuel : nat) (cats : list Category) (category : Category)
  : option (list Z) :=
  match get_category_descendants fuel cats category with
  | Some ids => Some (ids ++ [cat_id category])
  | None => None
  end.

(** The scope parameters of a request; [None] is an absent or empty one. *)
Record ScopeParams := {
  district : option Z;
  upazila : option Z;
  union_ : option Z;
  voter_area : option Z;
  category : option Z
}.

Definition or_else (a b : option Z) : option Z :=
  match a with Some _ => a | None => b end.

(** [voter_area_id or union_id or upazila_id or district_id or category_id] *)
Definition selected_category_id (s : ScopeParams) : option Z :=
  or_else (voter_area s) (or_else (union_ s) (or_else (upazila s)
    (or_else (district s) (category s)))).

(** [voter_list], "Apply hierarchical category filter (most specific wins)". *)
Definition voter_list_category_filter (fuel : nat) (cats : list Category)
    (s : ScopeParams) (voters : list Voter) : option (list Voter) :=
  match selected_category_id s with
  | Some pk =>
      match category_by_id cats pk with
      | Some category =>
          match descendant_ids fuel cats category with
          | Some ids => Some (List.filter (category_id__in ids) voters)
          | None => None
          end
      | None => Some voters            (* except Category.DoesNotExist: pass *)
      end
  | None => Some voters
  end.

(** [category_detail]: the voters of the category and of its descendants. *)
Definition category_detail (fuel : nat) (cats : list Category) (voters : list Voter)
    (pk : Z) : option (list Voter) :=
  match category_by_id cats pk with
  | Some category =>
      match descendant_ids fuel cats category with
      | Some ids => Some (List.filter (category_id__in ids) voters)
      | None => None
      end
  | None => None                        (* 404 *)
  end.

(** The JSON answer of the search endpoints.  [voters] lists the selected
    rows in the order of the answer; rendering a row (its fields with
    [or ''], [highlight_match]) is done row by row and is not modelled.
    [has_more] is absent from the answer to a query that is too short. *)
Record SearchResponse := {
  voters : list Voter;
  count : nat;
  query : string;
  has_more : option bool
}.

(** The [Case]/[When] annotation of the numeric branch. *)
Definition numeric_relevance (query : string) (v : Voter) : Z :=
  if exact (voter_no v) query then 100
  else if startswith_ (voter_no v) query then 90
  else if icontains (voter_no v) query then 70
  else 50.

(** [order_by('-relevance', 'voter_no')] on annotated rows. *)
Definition by_relevance_voter_no (a b : Voter * Z) : bool :=
  (snd b <? snd a) || ((snd a =? snd b) && opt_le (voter_no (fst a)) (voter_no (fst b))).

(** [order_by('-relevance', 'name')] on annotated rows. *)
Definition by_relevance_name (a b : Voter * Z) : bool :=
  (snd b <? snd a) || ((snd a =? snd b) && opt_le (name (fst a)) (name (fst b))).

(** The numeric branch of [api_search_voters], before the slice. *)
Definition numeric_queryset (Voter_objects : list Voter) (query : string)
  : list (Voter * Z) :=
  order_by by_relevance_voter_no
    (map (fun v => (v, numeric_relevance query v))
       (List.filter (fun v => icontains (voter_no v) query) Voter_objects)).

(** The filter of the text branch of [api_search_voters]. *)
Definition text_filter (query query_lower : string) (v : Voter) : bool :=
  icontains (name v) query || icontains (father v) query ||
  icontains (mother v) query || icontains (voter_no v) query ||
  icontains (address v) query || icontains (search_text v) query_lower.

(** The [Case]/[When] annotation of the text branch of [api_search_voters]. *)
Definition text_relevance (query : string) (v : Voter) : Z :=
  if iexact (name v) query then 100
  else if istartswith (name v) query then 90
  else if icontains (name v) query then 80
  else if icontains (voter_no v) query then 75
  else if istartswith (father v) query then 70
  else if istartswith (mother v) query then 70
  else if icontains (father v) query then 60
  else if icontains (mother v) query then 60
  else if icontains (address v) query then 50
  else 40.

(** The text branch of [api_search_voters], before the slice. *)
Definition text_queryset (Voter_objects : list Voter) (query : string)
  : list (Voter * Z) :=
  let query_lower := lower query in
  order_by by_relevance_name
    (map (fun v => (v, text_relevance query v))
       (List.filter (text_filter query query_lower) Voter_objects)).

(** [api_search_voters]: [q] is [request.GET.get('q', '')] and [limit_param]
    is [int(request.GET.get('limit', 15))]; [None] is the error of a
    negative slice bound. *)
Definition api_search_voters (Voter_objects : list Voter) (q : string)
    (limit_param : Z) : option SearchResponse :=
  let query := strip q in
  let limit := Z.min limit_param 50 in
  if (String.length query <? 1)%nat then
    Some {| voters := []; count := 0; query := query; has_more := None |}
  else
    let qs :=
      if isdigit query then numeric_queryset Voter_objects query
      else text_queryset Voter_objects query in
    match slice qs limit with
    | Some rows =>
        let results := map fst rows in
        Some {| voters := results; count := List.length results; query := query;
                has_more := Some (Z.of_nat (List.length results) =? limit) |}
    | None => None
    end.

(** One entry of the suggestion list. *)
Record Suggestion := {
  text : string;
  field : string
}.

Record SuggestResponse := {
  suggestions : list Suggestion;
  s_field : option string;
  s_query : option string;
  s_count : option nat
}.

(** The column read for an allow-listed [field]. *)
Definition field_value (fld : string) (v : Voter) : option string :=
  if String.eqb fld "father" then father v
  else if String.eqb fld "mother" then mother v
  else if String.eqb fld "address" then address v
  else name v.

(** "Apply category hierarchy filters (most specific first)" of
    [api_search_suggestions]. *)
Definition suggestions_category_filter (cats : list Category)
    (upazila_id union_id voter_area_id : option Z) (voters : list Voter) : list Voter :=
  match voter_area_id with
  | Some va => List.filter (fun v => category_id v =? va) voters
  | None =>
      match union_id with
      | Some u =>
          match category_by_id cats u with
          | Some union_category =>
              let child_ids := map cat_id (children_of cats (cat_id union_category)) ++ [u] in
              List.filter (category_id__in child_ids) voters
          | None => voters
          end
      | None =>
          match upazila_id with
          | Some up =>
              match category_by_id cats up with
              | Some upazila_category =>
                  let union_ids := map cat_id (children_of cats (cat_id upazila_category)) in
                  let voter_area_ids :=
                    map cat_id
                      (order_by (fun a b => str_le (full_path a) (full_path b))
                         (List.filter
                            (fun c => match parent c with
                                      | Some p => existsb (Z.eqb p) union_ids
                                      | None => false
                                      end) cats)) in
                  let all_ids := union_ids ++ voter_area_ids ++ [up] in
                  List.filter (category_id__in all_ids) voters
              | None => voters
              end
          | None => voters
          end
      end
  end.

(** The deduplication loop of [api_search_suggestions]:
    [for value in unique_values: ...], with its [break]. *)
Fixpoint suggestions_loop (limit : Z) (fld : string) (unique_values : list (option string))
    (seen : gset string) (suggestions : list Suggestion) : list Suggestion :=
  match unique_values with
  | [] => suggestions
  | value :: rest =>
      match value with
      | Some value =>
          if truthy value && truthy (strip value) then
            let value_lower := lower value in
            if bool_decide (value_lower ∈ seen) then
              suggestions_loop limit fld rest seen suggestions
            else
              let seen' := {[ value_lower ]} ∪ seen in
              let suggestions' := suggestions ++ [ {| text := strip value; field := fld |} ] in
              if Z.of_nat (List.length suggestions') >=? limit then suggestions'
              else suggestions_loop limit fld rest seen' suggestions'
          else suggestions_loop limit fld rest seen suggestions
      | None => suggestions_loop limit fld rest seen suggestions
      end
  end.

(** The key of [suggestions.sort]: [(0 if starts with the query else 1,
    text.lower())], compared as Python compares tuples. *)
Definition sort_key (query_lower : string) (x : Suggestion) : Z * string :=
  (if startswith (lower (text x)) query_lower then 0 else 1, lower (text x)).

Definition key_le (a b : Z * string) : bool :=
  (fst a <? fst b) || ((fst a =? fst b) && str_le (snd a) (snd b)).

(** [api_search_suggestions]; [None] is the error of a negative slice bound. *)
Definition api_search_suggestions (cats : list Category) (Voter_objects : list Voter)
    (q fld : string) (limit_param : Z) (upazila_id union_id voter_area_id : option Z)
  : option SuggestResponse :=
  let query := strip q in
  let fld := lower (strip fld) in
  let limit := Z.min limit_param 15 in
  if (String.length query <? 2)%nat then
    Some {| suggestions := []; s_field := None; s_query := None; s_count := None |}
  else
    let allowed_fields := ["name"; "father"; "mother"; "address"] in
    let fld := if existsb (String.eqb fld) allowed_fields then fld else "name" in
    let voters := suggestions_category_filter cats upazila_id union_id voter_area_id Voter_objects in
    let voters := List.filter (fun v => icontains (field_value fld v) query) voters in
    match slice (distinct (map (field_value fld) voters)) (limit * 2) with
    | Some unique_values =>
        let suggestions := suggestions_loop limit fld unique_values ∅ [] in
        let query_lower := lower query in
        let suggestions :=
          order_by (fun a b => key_le (sort_key query_lower a) (sort_key query_lower b))
            suggestions in
        Some {| suggestions := suggestions; s_field := Some fld; s_query := Some query;
                s_count := Some (List.length suggestions) |}
    | None => None
    end.

(** What [update_voter_status] tells the user through [messages]. *)
Inductive Message : Type :=
| error_invalid_status            (* 'Invalid status value.' *)
| success_updated (display : string)  (* 'Voter status updated to ...' *)
| info_unchanged.                 (* 'Status unchanged.' *)

(** The tables and the message store that [update_voter_status] works on. *)
Record Store := {
  Voter_objects : list Voter;
  VoterStatusAudit_objects : list VoterStatusAudit;
  messages : list Message
}.

(** [voter.get_status_display()] *)
Definition get_status_display (s : string) : string :=
  match List.find (fun c => String.eqb (fst c) s) STATUS_CHOICES with
  | Some c => snd c
  | None => s
  end.

(** [update_voter_status]: [user] is [request.user], [status_param] and
    [remarks_param] are the POST fields (['']  when absent), [now] is the
    clock read by [auto_now_add].  [None] is the 404 of an unknown [pk]. *)
Definition update_voter_status (now : Z) (user : Z) (meta : Meta) (pk : Z)
    (status_param remarks_param : string) (st : Store) : option Store :=
  match voter_by_pk (Voter_objects st) pk with
  | None => None
  | Some voter =>
      let new_status := strip status_param in
      let remarks := strip remarks_param in
      let valid_statuses := map fst STATUS_CHOICES in
      if negb (existsb (String.eqb new_status) valid_statuses) then
        Some {| Voter_objects := Voter_objects st;
                VoterStatusAudit_objects := VoterStatusAudit_objects st;
                messages := messages st ++ [error_invalid_status] |}
      else if negb (String.eqb (status voter) new_status) then
        let audit :=
          {| audit_voter := id voter; changed_by := Some user;
             old_status := status voter; new_status := new_status;
             remarks := Some remarks; changed_at := now;
             ip_address := Some (get_client_ip meta) |} in
        let voter' := set_status voter new_status in
        Some {| Voter_objects := save_status (Voter_objects st) voter';
                VoterStatusAudit_objects := VoterStatusAudit_objects st ++ [audit];
                messages := messages st ++ [success_updated (get_status_display (status voter'))] |}
      else
        Some {| Voter_objects := Voter_objects st;
                VoterStatusAudit_objects := VoterStatusAudit_objects st;
                messages := messages st ++ [info_unchanged] |}
  end.

(** [django.utils.html.escape]: the five characters with a meaning in HTML
    become entities. *)
Definition escape_char (c : ascii) : string :=
  if Ascii.eqb c "&" then "&amp;"
  else if Ascii.eqb c "<" then "&lt;"
  else if Ascii.eqb c ">" then "&gt;"
  else if Ascii.eqb c Text.double_quote then "&quot;"
  else if Ascii.eqb c "'" then "&#x27;"
  else String c "".

Fixpoint escape (s : string) : string :=
  match s with
  | EmptyString => EmptyString
  | String c s' => escape_char c +:+ escape s'
  end.

(** The first [n] characters of a string. *)
Fixpoint take (n : nat) (s : string) : string :=
  match n, s with
  | S k, String c s' => String c (take k s')
  | _, _ => EmptyString
  end.

(** [re.compile(re.escape(query), re.IGNORECASE).sub(repl, s)] for a
    non-empty [query]: the occurrences of [query], letter case aside, are
    replaced from left to right, without overlap.  [skip] counts the
    characters still covered by the occurrence replaced last. *)
Fixpoint sub_ignorecase (repl : string -> string) (query : string) (skip : nat)
    (s : string) : string :=
  match s with
  | EmptyString => EmptyString
  | String c s' =>
      match skip with
      | S k => sub_ignorecase repl query k s'
      | O =>
          if startswith (lower s) (lower query) then
            repl (take (String.length query) s)
              +:+ sub_ignorecase repl query (String.length query - 1) s'
          else String c (sub_ignorecase repl query 0 s')
      end
  end.

(** [highlight_match] *)
Definition highlight_match (text query : string) : string :=
  if negb (truthy text) || negb (truthy query) then escape text
  else
    sub_ignorecase (fun m => "<mark>" +:+ escape m +:+ "</mark>") query 0 (escape text).

End views.

(** ** [public_views.py] *)

Module public_views.
Import Text models orm.
Import views (Meta, HTTP_X_FORWARDED_FOR, REMOTE_ADDR, Request, META, params,
              Limited, TooManyRequests, Passed,
              SearchResponse, voters, count, query, has_more,
              Suggestion, text, field, SuggestResponse, suggestions, s_field,
              s_query, s_count).

(** [public_rate_limit(requests_per_minute)(view_func)(request)] *)
Definition public_rate_limit {P R} (requests_per_minute : Z) (view_name : string)
    (view_func : Request P -> R)
    (now : Z) (cache : gmap string (Z * Z)) (request : Request P)
  : Limited R * gmap string (Z * Z) :=
  let x_forwarded_for := HTTP_X_FORWARDED_FOR (META request) in
  let ip :=
    match x_forwarded_for with
    | Some x =>
        if truthy x then strip (before_comma x)
        else match REMOTE_ADDR (META request) with Some a => a | None => "unknown" end
    | None => match REMOTE_ADDR (META request) with Some a => a | None => "unknown" end
    end in
  let cache_key := "public_rate_limit:" +:+ view_name +:+ ":" +:+ ip in
  let request_count := cache_get cache now cache_key 0 in
  if request_count >=? requests_per_minute then
    (TooManyRequests 60, cache)
  else
    (Passed (view_func request),
     cache_set cache now cache_key (request_count + 1) 60).

(** The loop of [get_category_descendants]. *)
Fixpoint descendants_loop (recur : Category -> option (list Z))
    (children : list Category) (descendants : list Z) : option (list Z) :=
  match children with
  | [] => Some descendants
  | child :: rest =>
      match recur child with
      | Some sub => descendants_loop recur rest (descendants ++ [cat_id child] ++ sub)
      | None => None
      end
  end.

(** [get_category_descendants], the copy of this module. *)
Fixpoint get_category_descendants (fuel : nat) (cats : list Category)
    (category : Category) : option (list Z) :=
  match fuel with
  | O => None
  | S fuel' =>
      let children := children_of cats (cat_id category) in
      descendants_loop (get_category_descendants fuel' cats) children []
  end.

Definition descendant_ids (fuel : nat) (cats : list Category) (category : Category)
  : option (list Z) :=
  match get_category_descendants fuel cats category with
  | Some ids => Some (ids ++ [cat_id category])
  | None => None
  end.

(** [advanced_voter_search], "Apply hierarchical category filter". *)
Definition advanced_voter_search_category_filter (fuel : nat) (cats : list Category)
    (upazila_id union_id voter_area_id : option Z) (voters : list Voter)
  : option (list Voter) :=
  let selected_category_id :=
    views.or_else voter_area_id (views.or_else union_id upazila_id) in
  match selected_category_id with
  | Some pk =>
      match category_by_id cats pk with
      | Some category =>
          match descendant_ids fuel cats category with
          | Some ids => Some (List.filter (category_id__in ids) voters)
          | None => None
          end
      | None => Some voters            (* except Category.DoesNotExist: pass *)
      end
  | None => Some voters
  end.

Definition numeric_relevance (query : string) (v : Voter) : Z :=
  if exact (voter_no v) query then 100
  else if startswith_ (voter_no v) query then 90
  else if icontains (voter_no v) query then 70
  else 50.

Definition numeric_queryset (Voter_objects : list Voter) (query : string)
  : list (Voter * Z) :=
  order_by views.by_relevance_voter_no
    (map (fun v => (v, numeric_relevance query v))
       (List.filter (fun v => icontains (voter_no v) query) Voter_objects)).

(** The filter of the text branch of [public_api_search_voters]. *)
Definition text_filter (query : string) (v : Voter) : bool :=
  icontains (name v) query || icontains (father v) query ||
  icontains (mother v) query || icontains (voter_no v) query.

(** The [Case]/[When] annotation of the text branch of
    [public_api_search_voters]. *)
Definition text_relevance (query : string) (v : Voter) : Z :=
  if iexact (name v) query then 100
  else if istartswith (name v) query then 90
  else if icontains (name v) query then 80
  else if icontains (voter_no v) query then 75
  else if istartswith (father v) query then 70
  else if istartswith (mother v) query then 70
  else 40.

Definition text_queryset (Voter_objects : list Voter) (query : string)
  : list (Voter * Z) :=
  order_by views.by_relevance_name
    (map (fun v => (v, text_relevance query v))
       (List.filter (text_filter query) Voter_objects)).

(** [public_api_search_voters]: [q] is [request.GET.get('q', '')] and
    [limit_param] is [int(request.GET.get('limit', 10))]. *)
Definition public_api_search_voters (Voter_objects : list Voter) (q : string)
    (limit_param : Z) : option SearchResponse :=
  let query := strip q in
  let limit := Z.min limit_param 20 in
  if (String.length query <? 2)%nat then
    Some {| voters := []; count := 0; query := query; has_more := None |}
  else
    let qs :=
      if isdigit query then numeric_queryset Voter_objects query
      else text_queryset Voter_objects query in
    match slice qs limit with
    | Some rows =>
        let results := map fst rows in
        Some {| voters := results; count := List.length results; query := query;
                has_more := Some (Z.of_nat (List.length results) =? limit) |}
    | None => None
    end.

(** The category filter of [public_api_suggestions]. *)
Definition suggestions_category_filter (cats : list Category)
    (upazila_id union_id voter_area_id : option Z) (voters : list Voter) : list Voter :=
  match voter_area_id with
  | Some va => List.filter (fun v => category_id v =? va) voters
  | None =>
      match union_id with
      | Some u =>
          match category_by_id cats u with
          | Some union_category =>
              let child_ids := map cat_id (children_of cats (cat_id union_category)) ++ [u] in
              List.filter (category_id__in child_ids) voters
          | None => voters
          end
      | None =>
          match upazila_id with
          | Some up =>
              match category_by_id cats up with
              | Some upazila_category =>
                  let union_ids := map cat_id (children_of cats (cat_id upazila_category)) in
                  let voter_area_ids :=
                    map cat_id
                      (order_by (fun a b => str_le (full_path a) (full_path b))
                         (List.filter
                            (fun c => match parent c with
                                      | Some p => existsb (Z.eqb p) union_ids
                                      | None => false
                                      end) cats)) in
                  let all_ids := union_ids ++ voter_area_ids ++ [up] in
                  List.filter (category_id__in all_ids) voters
              | None => voters
              end
          | None => voters
          end
      end
  end.

(** The deduplication loop of [public_api_suggestions]. *)
Fixpoint suggestions_loop (limit : Z) (fld : string) (unique_values : list (option string))
    (seen : gset string) (suggestions : list Suggestion) : list Suggestion :=
  match unique_values with
  | [] => suggestions
  | value :: rest =>
      match value with
      | Some value =>
          if truthy value && truthy (strip value) then
            let value_lower := lower value in
            if bool_decide (value_lower ∈ seen) then
              suggestions_loop limit fld rest seen suggestions
            else
              let seen' := {[ value_lower ]} ∪ seen in
              let suggestions' := suggestions ++ [ {| text := strip value; field := fld |} ] in
              if Z.of_nat (List.length suggestions') >=? limit then suggestions'
              else suggestions_loop limit fld rest seen' suggestions'
          else suggestions_loop limit fld rest seen suggestions
      | None => suggestions_loop limit fld rest seen suggestions
      end
  end.

(** [public_api_suggestions] *)
Definition public_api_suggestions (cats : list Category) (Voter_objects : list Voter)
    (q fld : string) (limit_param : Z) (upazila_id union_id voter_area_id : option Z)
  : option SuggestResponse :=
  let query := strip q in
  let fld := lower (strip fld) in
  let limit := Z.min limit_param 10 in
  if (String.length query <? 2)%nat then
    Some {| suggestions := []; s_field := None; s_query := None; s_count := None |}
  else
    let allowed_fields := ["name"; "father"; "mother"; "address"] in
    let fld := if existsb (String.eqb fld) allowed_fields then fld else "name" in
    let voters := suggestions_category_filter cats upazila_id union_id voter_area_id Voter_objects in
    let voters := List.filter (fun v => icontains (views.field_value fld v) query) voters in
    match slice (distinct (map (views.field_value fld) voters)) (limit * 2) with
    | Some unique_values =>
        let suggestions := suggestions_loop limit fld unique_values ∅ [] in
        let query_lower := lower query in
        let suggestions :=
          order_by (fun a b => views.key_le (views.sort_key query_lower a)
                                            (views.sort_key query_lower b))
            suggestions in
        Some {| suggestions := suggestions; s_field := Some fld; s_query := Some query;
                s_count := Some (List.length suggestions) |}
    | None => None
    end.

(** [highlight_match], the copy of this module. *)
Definition highlight_match (text query : string) : string :=
  if negb (truthy text) || negb (truthy query) then views.escape text
  else
    views.sub_ignorecase (fun m => "<mark>" +:+ views.escape m +:+ "</mark>") query 0
      (views.escape text).


End public_views.

(** ** [management/commands/import_voters_all.py] and [update_search_text.py] *)

Module commands.
Import Text models orm.

(** One spreadsheet row after [get_value] has been applied to each group of
    column names. *)
Record Row := {
  row_serial : option string;
  row_name : option string;
  row_voter_no : option string;
  row_father : option string;
  row_mother : option string;
  row_profession : option string;
  row_dob : option string;
  row_address : option string
}.

(** [_parse_filename]: the gender read off the file name. *)
Definition _parse_filename (filename : string) : string :=
  let filename_lower := lower filename in
  if contains filename_lower "female" then "female"
  else if contains filename_lower "male" then "male"
  else "unknown".

(** [Voter(category=..., gender=..., source_file=..., serial=..., ...)]: the
    fields that are not given take their defaults: [status] is ['present'],
    [search_text] is [NULL]; the primary key is assigned on insertion. *)
Definition new_voter (category : Category) (gender_ source_file_ : string) (row : Row) : Voter :=
  {| id := 0; category_id := cat_id category;
     serial := row_serial row; name := row_name row; voter_no := row_voter_no row;
     father := row_father row; mother := row_mother row;
     profession := row_profession row; dob := row_dob row; address := row_address row;
     gender := gender_; status := "present"; source_file := source_file_;
     search_text := None |}.

(** [_process_excel_files] for one file: the rows become [Voter] objects and
    are written with [bulk_create]. *)
Definition _process_excel_file (table : list Voter) (category : Category)
    (excel_name : string) (df : list Row) : list Voter :=
  let metadata := _parse_filename excel_name in
  let voters_to_create := map (new_voter category metadata excel_name) df in
  bulk_create table voters_to_create.

(** [_extract_code]: a folder name of more than two digits, and digits only,
    without its first two. *)
Definition _extract_code (folder_name : string) : option string :=
  if isdigit folder_name && (2 <? String.length folder_name)%nat then
    Some (String.substring 2 (String.length folder_name - 2) folder_name)
  else None.

(** The directory tree as the command reads it.  A directory has its name,
    what [iterdir()] lists ([None] when it raises [PermissionError]) and
    whether [glob('*.xlsx')] finds anything in it; an Excel file is a file
    whose suffix is [.xlsx] in any letter case, with the rows that
    [pd.read_excel] gives ([None] when reading or inserting raises); any other
    entry has just its name. *)
#[local] Unset Elimination Schemes.
Inductive Path : Type :=
| directory (name : string) (iterdir : option (list Path)) (glob_xlsx : bool)
| excel_file (name : string) (read_excel : option (list Row))
| other_entry (name : string).
#[local] Set Elimination Schemes.

Definition path_name (path : Path) : string :=
  match path with
  | directory name _ _ => name
  | excel_file name _ => name
  | other_entry name => name
  end.

(** The tables the command writes and the counters it reports. *)
Record Command := {
  categories : list Category;
  voters : list Voter;
  categories_created : nat;
  voters_created : nat;
  excel_files_processed : nat
}.

(** A loop whose body may raise. *)
Fixpoint for_each {A S : Type} (body : A -> S -> option S) (l : list A) (s : S) : option S :=
  match l with
  | [] => Some s
  | a :: l' =>
      match body a s with
      | Some s' => for_each body l' s'
      | None => None
      end
  end.

(** [_get_or_create_category]: the category (none in a dry run) and the
    command afterwards. *)
Definition _get_or_create_category (dry_run : bool) (name_ : string)
    (parent_ : option Category) (full_path_ : string) (level_ : nat) (self : Command)
  : option (option Category * Command) :=
  let code_ := _extract_code name_ in
  if dry_run then
    Some (None,
          {| categories := categories self; voters := voters self;
             categories_created := S (categories_created self);
             voters_created := voters_created self;
             excel_files_processed := excel_files_processed self |})
  else
    match get_or_create (categories self) full_path_ name_ code_ parent_ level_ with
    | None => None
    | Some (category, created, cats) =>
        Some (Some category,
              {| categories := cats; voters := voters self;
                 categories_created :=
                   if created then S (categories_created self) else categories_created self;
                 voters_created := voters_created self;
                 excel_files_processed := excel_files_processed self |})
    end.

(** [_process_excel_files]: in a dry run a file is only counted; otherwise
    its rows are inserted and counted, and a file that cannot be read is
    skipped. *)
Definition _process_excel_files (dry_run : bool)
    (excel_files : list (string * option (list Row))) (category : Category)
    (self : Command) : Command :=
  fold_left
    (fun self excel_path =>
       let excel_name := fst excel_path in
       if dry_run then
         {| categories := categories self; voters := voters self;
            categories_created := categories_created self;
            voters_created := voters_created self;
            excel_files_processed := S (excel_files_processed self) |}
       else
         match snd excel_path with
         | Some df =>
             {| categories := categories self;
                voters := _process_excel_file (voters self) category excel_name df;
                categories_created := categories_created self;
                voters_created := voters_created self + List.length df;
                excel_files_processed := S (excel_files_processed self) |}
         | None => self
         end)
    excel_files self.

(** [_scan_directory(path, parent, level)].  The subdirectories and the Excel
    files are taken in the order of their names; each subdirectory comes with
    the scan of its own content.  Called on something that is no directory,
    [iterdir()] raises ([None]). *)
Fixpoint _scan_directory (dry_run : bool) (path : Path) (parent_ : option Category)
    (level_ : nat) (self : Command) {struct path} : option Command :=
  match path with
  | directory _ None _ => Some self
  | directory _ (Some entries) _ =>
      let subdirs :=
        order_by (fun a b => str_le (path_name (fst a)) (path_name (fst b)))
          (flat_map (fun e => match e with
                              | directory _ _ _ => [(e, _scan_directory dry_run e)]
                              | _ => []
                              end) entries) in
      let excel_files :=
        order_by (fun a b => str_le (fst a) (fst b))
          (flat_map (fun e => match e with
                              | excel_file name read_excel => [(name, read_excel)]
                              | _ => []
                              end) entries) in
      match
        for_each
          (fun subdir self =>
             let folder_name := path_name (fst subdir) in
             let full_path_ :=
               match parent_ with
               | Some p => full_path p +:+ "/" +:+ folder_name
               | None => folder_name
               end in
             match _get_or_create_category dry_run folder_name parent_ full_path_ level_ self with
             | None => None
             | Some (category, self) =>
                 let child_excel_files :=
                   match fst subdir with directory _ _ glob_xlsx => glob_xlsx | _ => false end in
                 match category with
                 | Some c =>
                     if child_excel_files && negb dry_run then
                       let c' := set_has_excel c true in
                       snd subdir (Some c') (S level_)
                         {| categories := save_has_excel (categories self) c';
                            voters := voters self;
                            categories_created := categories_created self;
                            voters_created := voters_created self;
                            excel_files_processed := excel_files_processed self |}
                     else snd subdir (Some c) (S level_) self
                 | None => snd subdir None (S level_) self
                 end
             end)
          subdirs self
      with
      | None => None
      | Some self =>
          match excel_files, parent_ with
          | _ :: _, Some p => Some (_process_excel_files dry_run excel_files p self)
          | _, _ => Some self
          end
      end
  | _ => None
  end.

(** [handle]: [base_path] is [None] when the path does not exist; with
    [--clear] outside a dry run the tables are emptied first; the counters
    start at zero. *)
Definition handle (base_path : option Path) (clear dry_run : bool)
    (categories_ : list Category) (voters_ : list Voter) : option Command :=
  match base_path with
  | None =>
      Some {| categories := categories_; voters := voters_;
              categories_created := 0; voters_created := 0;
              excel_files_processed := 0 |}
  | Some path =>
      let cleared := clear && negb dry_run in
      _scan_directory dry_run path None 0
        {| categories := if cleared then [] else categories_;
           voters := if cleared then [] else voters_;
           categories_created := 0; voters_created := 0;
           excel_files_processed := 0 |}
  end.

(** [update_search_text.Command.handle]: every row gets
    [search_text = build_search_text()], saved with
    [update_fields=['search_text']]. *)
Definition update_search_text (table : list Voter) : list Voter :=
  map (fun voter => set_search_text voter (Some (build_search_text voter))) table.

End commands.

(** ** [templatetags/pagination_tags.py] *)

Module pagination_tags.

(** An entry of [page_numbers]: a page number or the string ['...']. *)
Inductive PageItem : Type :=
| page (number : Z)
| ellipsis.

(** [range(a, b)] *)
Definition range (a b : Z) : list Z :=
  map (fun i => a + Z.of_nat i) (seq 0 (Z.to_nat (b - a))).

(** [render_pagination], "Determine which page numbers to show":
    [current_page] is [page_obj.number], [total_pages] is
    [page_obj.paginator.num_pages]. *)
Definition page_numbers (current_page total_pages adjacent_pages : Z) : list PageItem :=
  if total_pages <=? 7 then
    map page (range 1 (total_pages + 1))
  else
    let start_page := Z.max 2 (current_page - adjacent_pages) in
    let end_page := Z.min (total_pages - 1) (current_page + adjacent_pages) in
    [page 1]
      ++ (if start_page >? 2 then [ellipsis] else [])
      ++ map page (range start_page (end_page + 1))
      ++ (if end_page <? total_pages - 1 then [ellipsis] else [])
      ++ (if total_pages >? 1 then [page total_pages] else []).

End pagination_tags.

(** * Notions used to state the properties *)

Module notions.
Import Text models orm.

(** [reachable cats n m]: the node with identifier [m] is reached from [n]
    by following one or more child links of the category table. *)
Inductive reachable (cats : list Category) : Z -> Z -> Prop :=
| reach_child n c :
    In c cats -> parent c = Some n -> reachable cats n (cat_id c)
| reach_step n c m :
    In c cats -> parent c = Some n -> reachable cats (cat_id c) m ->
    reachable cats n m.

(** The parent links form no cycle. *)
Definition acyclic (cats : list Category) : Prop :=
  forall n, ~ reachable cats n n.

(** A node without children. *)
Definition leaf (cats : list Category) (n : Z) : Prop :=
  forall c, In c cats -> parent c <> Some n.

(** A nullable column holds a text in which [q] occurs, letter case aside. *)
Definition ci_contains (col : option string) (q : string) : Prop :=
  exists s pre post, col = Some s /\ lower s = pre +:+ lower q +:+ post.





(** Candidates of a text query. *)
Definition text_candidate (q : string) (v : Voter) : Prop :=
  ci_contains (name v) q \/ ci_contains (father v) q \/ ci_contains (mother v) q \/
  ci_contains (voter_no v) q \/ ci_contains (address v) q \/ ci_contains (search_text v) q.



(** The answer of a search endpoint that returns [rows] for [limit]. *)
Definition answer (rows : list Voter) (q : string) (limit : Z) : views.SearchResponse :=
  {| views.voters := rows; views.count := List.length rows; views.query := q;
     views.has_more := Some (Z.of_nat (List.length rows) =? limit) |}.


(** The stored [search_text] of a row is the one its fields give. *)
Definition search_text_current (v : Voter) : Prop :=
  search_text v = Some (build_search_text v).

(** Two suggestions that differ by letter case at most. *)
Definition same_ignoring_case (a b : views.Suggestion) : Prop :=
  lower (views.text a) = lower (views.text b).

(** The order of the suggestion list: entries that start with the query
    first, and ascending lowercase text within each group. *)
Definition suggestion_before (query_lower : string) (a b : views.Suggestion) : Prop :=
  let starts x := startswith (lower (views.text x)) query_lower in
  (starts a = true /\ starts b = false) \/
  (starts a = starts b /\ str_le (lower (views.text a)) (lower (views.text b)) = true).

(** Serving calls one after the other, each at its own time, through a
    rate-limiting wrapper: the answers and the cache left behind. *)
Fixpoint serve {R : Type}
    (wrapper : Z -> gmap string (Z * Z) -> views.Limited R * gmap string (Z * Z))
    (cache : gmap string (Z * Z)) (times : list Z)
  : list (views.Limited R) * gmap string (Z * Z) :=
  match times with
  | [] => ([], cache)
  | t :: rest =>
      let step := wrapper t cache in
      let later := serve wrapper (snd step) rest in
      (fst step :: fst later, snd later)
  end.

(** The answers to [n] calls of which the first [limit] are let through. *)
Definition first_pass {R : Type} (limit : Z) (response : R) (n : nat)
  : list (views.Limited R) :=
  map (fun i => if Z.of_nat i <? limit then views.Passed response
                else views.TooManyRequests 60) (seq 0 n).

(** Each call comes no earlier than the one before and less than 60 time
    units after it. *)
Fixpoint closely_spaced (prev : Z) (times : list Z) : Prop :=
  match times with
  | [] => True
  | t :: rest => prev <= t < prev + 60 /\ closely_spaced t rest
  end.


(** The counter of [key] reads [cnt] throughout the 60 time units from
    [from]. *)
Definition counter_reads (key : string) (cache : gmap string (Z * Z)) (cnt from : Z) : Prop :=
  forall t, from <= t < from + 60 -> orm.cache_get cache t key 0 = cnt.


(** The audit entries of the voter [pk], oldest first. *)
Definition trail (log : list VoterStatusAudit) (pk : Z) : list VoterStatusAudit :=
  List.filter (fun e => audit_voter e =? pk) log.

(** A trail read from its newest entry back: the newest entry leads to
    [current], every entry changes the status into a valid one, and every
    entry starts from the status the entry before it led to. *)
Fixpoint chained (newest_first : list VoterStatusAudit) (current : string) : Prop :=
  match newest_first with
  | [] => True
  | e :: older =>
      new_status e = current /\ old_status e <> new_status e /\
      In (new_status e) (map fst STATUS_CHOICES) /\
      chained older (old_status e)
  end.

(** Every voter's trail is chained and ends at the voter's stored status. *)
Definition trail_consistent (st : views.Store) : Prop :=
  forall v, In v (views.Voter_objects st) ->
    chained (rev (trail (views.VoterStatusAudit_objects st) (id v))) (status v).

(** Primary keys are unique. *)
Definition unique_ids (table : list Voter) : Prop := List.NoDup (map id table).






(** An answer without the echo of the query. *)
Definition listed (r : views.SearchResponse) : list Voter * nat * option bool :=
  (views.voters r, views.count r, views.has_more r).


(** The field a suggestion request is answered for. *)
Definition chosen_field (fld : string) : string :=
  let f := lower (strip fld) in
  if existsb (String.eqb f) ["name"; "father"; "mother"; "address"] then f else "name".

(** The suggestion list that the loop and the sort make of the values read
    for [limit]. *)
Definition suggested (cats : list Category) (db : list Voter) (query fld : string)
    (limit : Z) (upazila_id union_id voter_area_id : option Z) : list views.Suggestion :=
  order_by (fun a b => views.key_le (views.sort_key (lower query) a)
                                    (views.sort_key (lower query) b))
    (views.suggestions_loop limit fld
       (firstn (Z.to_nat (limit * 2))
          (distinct
             (map (views.field_value fld)
                (List.filter (fun v => icontains (views.field_value fld v) query)
                   (views.suggestions_category_filter cats upazila_id union_id
                      voter_area_id db)))))
       ∅ []).

(** The answer to a suggestion request that is not looked up. *)
Definition no_suggestions : views.SuggestResponse :=
  {| views.suggestions := []; views.s_field := None; views.s_query := None;
     views.s_count := None |}.


(** A highlighted text with its [<mark>] and [</mark>] tags taken out. *)
Fixpoint unmark (skip : nat) (s : string) : string :=
  match s with
  | EmptyString => EmptyString
  | String c s' =>
      match skip with
      | S k => unmark k s'
      | O =>
          if startswith s "<mark>" then unmark 5 s'
          else if startswith s "</mark>" then unmark 6 s'
          else String c (unmark 0 s')
      end
  end.

(** No character of the string is one of [<], [>], the double and the
    single quote. *)
Fixpoint no_markup (s : string) : bool :=
  match s with
  | EmptyString => true
  | String c s' =>
      negb (Ascii.eqb c "<") && negb (Ascii.eqb c ">") &&
      negb (Ascii.eqb c Text.double_quote) && negb (Ascii.eqb c "'") && no_markup s'
  end.

(** The string has no ampersand. *)
Fixpoint no_ampersand (s : string) : bool :=
  match s with
  | EmptyString => true
  | String c s' => negb (Ascii.eqb c "&") && no_ampersand s'
  end.


(** A string without its first [n] characters. *)
Fixpoint drop (n : nat) (s : string) : string :=
  match n, s with
  | S k, String _ s' => drop k s'
  | _, _ => s
  end.

(** The replacement that [highlight_match] makes of an occurrence. *)
Definition mark (m : string) : string := "<mark>" +:+ views.escape m +:+ "</mark>".




(** The path is a directory. *)
Definition is_directory (path : commands.Path) : bool :=
  match path with commands.directory _ _ _ => true | _ => false end.

(** The folders below a directory that a scan visits: those it can list
    its way down to. *)
Fixpoint count_folders (path : commands.Path) : nat :=
  match path with
  | commands.directory _ (Some entries) _ =>
      list_sum (map (fun e => match e with
                              | commands.directory _ _ _ => S (count_folders e)
                              | _ => 0%nat
                              end) entries)
  | _ => 0%nat
  end.

(** Two category rows that agree on every column but [has_excel]. *)
Definition same_row (c c' : Category) : Prop :=
  set_has_excel c false = set_has_excel c' false.

(** Every row of [cats] is still in [cats'], [has_excel] aside. *)
Definition kept (cats cats' : list Category) : Prop :=
  forall c, In c cats -> exists c', In c' cats' /\ same_row c c'.

(** The category table spells a tree: identifiers and full paths are unique,
    the full path of a root is its name, and the full path of any other row
    is that of its parent row, a slash and its name. *)
Definition well_formed (cats : list Category) : Prop :=
  List.NoDup (map cat_id cats) /\
  List.NoDup (map full_path cats) /\
  forall c, In c cats ->
    match parent c with
    | None => full_path c = cat_name c
    | Some p =>
        exists r, In r cats /\ cat_id r = p /\
                  full_path c = full_path r +:+ "/" +:+ cat_name c
    end.


(** A line of descent read from the top: the first row has parent [top],
    each further row has the row before it as parent, and [bottom] is the
    key of the last row ([top] when there is no row). *)
Fixpoint lineage (top : option Z) (rows : list Category) (bottom : option Z) : Prop :=
  match rows with
  | [] => top = bottom
  | a :: rest => parent a = top /\ lineage (Some (cat_id a)) rest bottom
  end.


(** The command with [n] more categories counted. *)
Definition count_more (self : commands.Command) (n : nat) : commands.Command :=
  {| commands.categories := commands.categories self;
     commands.voters := commands.voters self;
     commands.categories_created := (commands.categories_created self + n)%nat;
     commands.voters_created := commands.voters_created self;
     commands.excel_files_processed := commands.excel_files_processed self |}.

(** The parent handed to a scan is a row of the table, [has_excel] aside. *)
Definition parent_ok (cats : list Category) (parent_ : option Category) : Prop :=
  match parent_ with
  | None => True
  | Some p => exists r, In r cats /\ same_row r p
  end.

End notions.

(** * Example data *)

(** Example tables: the tree [A -> B -> C] of the specification, and a
    chain six levels deep. *)
Definition mk_category (pk : Z) (nm : string) (p : option Z) (path : string) (lvl : nat)
  : models.Category :=
  {| models.cat_id := pk; models.cat_name := nm; models.code := None;
     models.parent := p; models.full_path := path; models.has_excel := false;
     models.level := lvl |}.

Definition cat_A := mk_category 1 "A" None "A" 0.
Definition cat_B := mk_category 2 "B" (Some 1) "A/B" 1.
Definition cat_C := mk_category 3 "C" (Some 2) "A/B/C" 2.
Definition tree_ABC : list models.Category := [cat_A; cat_B; cat_C].

Definition chain6 : list models.Category :=
  [ mk_category 10 "division" None "division" 0;
    mk_category 11 "district" (Some 10) "division/district" 1;
    mk_category 12 "upazila" (Some 11) "division/district/upazila" 2;
    mk_category 13 "union" (Some 12) "division/district/upazila/union" 3;
    mk_category 14 "ward" (Some 13) "division/district/upazila/union/ward" 4;
    mk_category 15 "area" (Some 14) "division/district/upazila/union/ward/area" 5 ].

(** Example rows: the two records of the specification and three more. *)
Definition mk_voter (pk : Z) (nm vno fa mo addr : option string) : models.Voter :=
  {| models.id := pk; models.category_id := 3; models.serial := None;
     models.name := nm; models.voter_no := vno; models.father := fa;
     models.mother := mo; models.profession := None; models.dob := None;
     models.address := addr; models.gender := "male"; models.status := "present";
     models.source_file := "male.xlsx"; models.search_text := None |}.

Definition karim := mk_voter 1 (Some "Karim") (Some "123") None None None.
Definition karim_uddin := mk_voter 2 (Some "Karim Uddin") (Some "456") None None None.
Definition rahim := mk_voter 3 (Some "Rahim") (Some "1234") (Some "Abdul Karim") None None.
Definition salma := mk_voter 4 (Some "Salma") (Some "5") None None (Some "Dhaka").

(** A row with a padded name and a row that differs from it by case. *)
Definition karim_padded := mk_voter 6 (Some "Karim ") (Some "777") None None None.
Definition karim_small := mk_voter 7 (Some "karim") (Some "888") None None None.

(** A store with two voters and no audit entry; a request that came
    through a proxy. *)
Definition store0 : views.Store :=
  {| views.Voter_objects := [karim; salma];
     views.VoterStatusAudit_objects := [];
     views.messages := [] |}.

Definition meta0 : views.Meta :=
  {| views.HTTP_X_FORWARDED_FOR := Some "203.0.113.7, 10.0.0.1";
     views.REMOTE_ADDR := Some "10.0.0.1" |}.

Definition request0 : views.Request unit :=
  {| views.META := meta0; views.params := tt |}.

Definition key0 : string := "rate_limit:api_search_voters:203.0.113.7".


(** One line of a spreadsheet. *)
Definition row_karim : commands.Row :=
  {| commands.row_serial := Some "7"; commands.row_name := Some "Karim";
     commands.row_voter_no := Some "123"; commands.row_father := Some "Abdul";
     commands.row_mother := None; commands.row_profession := Some "Farmer";
     commands.row_dob := None; commands.row_address := Some "Dhaka" |}.

(** A row as [Voter.save] stores it, with its [search_text]. *)
Definition farmer : models.Voter :=
  models.set_search_text
    {| models.id := 11; models.category_id := 3; models.serial := Some "7"; models.name := Some "Karim";
       models.voter_no := Some "123"; models.father := None; models.mother := None;
       models.profession := Some "Farmer"; models.dob := None; models.address := None;
       models.gender := "male"; models.status := "present"; models.source_file := "male.xlsx";
       models.search_text := None |}
    (Some "7 karim 123 farmer").

(** A folder tree: two folders at the top, one of them unreadable, one with
    an Excel file and a subfolder. *)
Definition folder_tree : commands.Path :=
  commands.directory "data"
    (Some [commands.other_entry "readme.txt";
           commands.directory "zila" None false;
           commands.directory "10123"
             (Some [commands.excel_file "male.xlsx" (Some [row_karim]);
                    commands.directory "ward" (Some []) false])
             true])
    false.


(** * Properties *)

(** ** Strings *)

Section TextFacts.
Import Text.

Lemma startswith_app (p post : string) : startswith (p +:+ post) p = true.
Proof.
  induction p as [|c p IH]; simpl; [reflexivity|].
  now rewrite Ascii.eqb_refl, IH.
Qed.

Lemma startswith_inv (s p : string) :
  startswith s p = true -> exists post, s = p +:+ post.
Proof.
  revert s. induction p as [|b p IH]; intros s H; simpl in H.
  - now exists s.
  - destruct s as [|a s]; [discriminate|].
    apply andb_prop in H as [Hab Hs].
    apply Ascii.eqb_eq in Hab. subst b.
    destruct (IH _ Hs) as [post ->]. now exists post.
Qed.

(** [contains s sub] is the substring test: [sub] occurs in [s] between a
    prefix and a suffix. *)
Lemma contains_spec (s sub : string) :
  contains s sub = true <-> exists pre post, s = pre +:+ sub +:+ post.
Proof.
  split.
  - induction s as [|c s IH]; simpl; intros H.
    + rewrite orb_false_r in H. apply startswith_inv in H as [post ->].
      now exists "", post.
    + apply orb_prop in H as [H|H].
      * apply startswith_inv in H as [post ->]. now exists "", post.
      * destruct (IH H) as (pre & post & ->). now exists (String c pre), post.
  - intros (pre & post & ->).
    induction pre as [|c pre IH]; simpl.
    + assert (H : startswith (sub +:+ post) sub = true) by apply startswith_app.
      destruct (sub +:+ post); simpl; now rewrite H.
    + change (pre +:+ sub +:+ post) with (String.append pre (String.append sub post)) in *.
      rewrite IH. apply orb_true_r.
Qed.


Lemma ascii_compare_lt_trans (a b c : ascii) :
  Ascii.compare a b = Lt -> Ascii.compare b c = Lt -> Ascii.compare a c = Lt.
Proof.
  unfold Ascii.compare. rewrite !N.compare_lt_iff. lia.
Qed.

Lemma string_compare_lt_trans (a b c : string) :
  String.compare a b = Lt -> String.compare b c = Lt -> String.compare a c = Lt.
Proof.
  revert b c. induction a as [|x a IH]; intros [|y b] [|z c]; simpl; try congruence.
  destruct (Ascii.compare x y) eqn:Exy; try discriminate;
    destruct (Ascii.compare y z) eqn:Eyz; try discriminate; intros Hab Hbc.
  - apply Ascii.compare_eq_iff in Exy, Eyz. subst.
    assert (E : Ascii.compare z z = Eq).
    { unfold Ascii.compare. apply N.compare_refl. }
    rewrite E. eauto.
  - apply Ascii.compare_eq_iff in Exy. subst. now rewrite Eyz.
  - apply Ascii.compare_eq_iff in Eyz. subst. now rewrite Exy.
  - now rewrite (ascii_compare_lt_trans _ _ _ Exy Eyz).
Qed.

Lemma str_le_trans (a b c : string) :
  str_le a b = true -> str_le b c = true -> str_le a c = true.
Proof.
  unfold str_le, String.leb.
  destruct (String.compare a b) eqn:Eab; try discriminate;
    destruct (String.compare b c) eqn:Ebc; try discriminate; intros _ _.
  - apply String.compare_eq_iff in Eab. subst a. now rewrite Ebc.
  - apply String.compare_eq_iff in Eab. subst a. now rewrite Ebc.
  - apply String.compare_eq_iff in Ebc. subst c. now rewrite Eab.
  - now rewrite (string_compare_lt_trans _ _ _ Eab Ebc).
Qed.

Lemma str_le_total (a b : string) : str_le a b = false -> str_le b a = true.
Proof.
  intros H. destruct (String.leb_total a b) as [E|E]; [|exact E].
  unfold str_le in H. congruence.
Qed.

End TextFacts.

(** ** [order_by] and slices *)

Section OrderByFacts.
Import orm.
Context {A : Type} (le : A -> A -> bool).

Lemma insert_sorted_perm x l : Permutation (x :: l) (insert_sorted le x l).
Proof.
  induction l as [|y l IH]; simpl; [reflexivity|].
  destruct (le x y); [reflexivity|].
  rewrite perm_swap. now apply perm_skip.
Qed.

Lemma order_by_perm l : Permutation l (order_by le l).
Proof.
  induction l as [|x l IH]; simpl; [constructor|].
  rewrite <- insert_sorted_perm. now apply perm_skip.
Qed.

Lemma order_by_In x l : In x (order_by le l) <-> In x l.
Proof.
  split; apply Permutation_in; [symmetry|]; apply order_by_perm.
Qed.

Hypothesis le_total : forall a b, le a b = false -> le b a = true.
Hypothesis le_trans : forall a b c, le a b = true -> le b c = true -> le a c = true.

Lemma insert_sorted_sorted x l :
  StronglySorted (fun a b => le a b = true) l ->
  StronglySorted (fun a b => le a b = true) (insert_sorted le x l).
Proof.
  induction 1 as [|y l Hs IH Hall]; simpl.
  - repeat constructor.
  - destruct (le x y) eqn:E.
    + constructor; [now constructor|].
      constructor; [exact E|].
      rewrite List.Forall_forall in *. intros z Hz. eapply le_trans; eauto.
    + constructor; [exact IH|].
      rewrite List.Forall_forall in *. intros z Hz.
      apply (Permutation_in _ (Permutation_sym (insert_sorted_perm x l))) in Hz.
      destruct Hz as [<-|Hz]; [now apply le_total | now apply Hall].
Qed.

Lemma order_by_sorted l : StronglySorted (fun a b => le a b = true) (order_by le l).
Proof.
  induction l as [|x l IH]; simpl; [constructor|].
  now apply insert_sorted_sorted.
Qed.

End OrderByFacts.


Lemma firstn_In {A} (x : A) n l : In x (firstn n l) -> In x l.
Proof.
  revert l. induction n as [|n IH]; intros [|y l]; simpl; try tauto.
  intros [->|H]; auto.
Qed.


Lemma StronglySorted_weaken {A} (R R' : A -> A -> Prop) (l : list A) :
  (forall a b, R a b -> R' a b) -> StronglySorted R l -> StronglySorted R' l.
Proof.
  intros HR. induction 1 as [|x l Hs IH Hall]; constructor; auto.
  rewrite List.Forall_forall in *. auto.
Qed.

(** ** Category scopes: [get_category_descendants] *)

Lemma children_of_In cats pk c :
  In c (orm.children_of cats pk) <-> In c cats /\ models.parent c = Some pk.
Proof.
  unfold orm.children_of. rewrite order_by_In, filter_In.
  split; intros [Hc Hp]; split; auto.
  - destruct (models.parent c) as [p|]; [|discriminate].
    apply Z.eqb_eq in Hp. now subst.
  - rewrite Hp. apply Z.eqb_refl.
Qed.

Section Scopes.
Import models orm notions.
Variable cats : list Category.

Lemma reachable_snoc a n c :
  reachable cats a n -> In c cats -> parent c = Some n -> reachable cats a (cat_id c).
Proof.
  induction 1 as [n c0 Hin Hp | n c0 m Hin Hp Hr IH]; intros Hc Hpc.
  - apply (reach_step cats n c0 (cat_id c) Hin Hp). now apply reach_child.
  - apply (reach_step cats n c0 (cat_id c) Hin Hp). now apply IH.
Qed.

Lemma reachable_inv n m :
  reachable cats n m <->
  exists c, In c cats /\ parent c = Some n /\ (m = cat_id c \/ reachable cats (cat_id c) m).
Proof.
  split.
  - intros H. inversion H; subst; eauto 6.
  - intros (c & Hin & Hp & [->|Hr]).
    + now apply reach_child.
    + now apply (reach_step cats n c m).
Qed.

(** A rank that grows along the child links rules out cycles. *)
Lemma acyclic_of_rank (rank : Z -> nat) :
  (forall c p, In c cats -> parent c = Some p -> (rank p < rank (cat_id c))%nat) ->
  acyclic cats.
Proof.
  intros Hrank.
  assert (Hlt : forall n m, reachable cats n m -> (rank n < rank m)%nat).
  { induction 1 as [n c Hin Hp | n c m Hin Hp Hr IH].
    - now apply Hrank.
    - specialize (Hrank c n Hin Hp). lia. }
  intros n Hn. apply Hlt in Hn. lia.
Qed.

Lemma descendants_loop_spec recur children acc out :
  views.descendants_loop recur children acc = Some out ->
  forall m, In m out <->
    In m acc \/
    exists child sub, In child children /\ recur child = Some sub /\
                      (m = cat_id child \/ In m sub).
Proof.
  revert acc out. induction children as [|child rest IH]; simpl; intros acc out H m.
  - injection H as <-. split; [tauto|]. intros [?|(?&?&[]&_)]; assumption.
  - destruct (recur child) as [sub|] eqn:E; [|discriminate].
    rewrite (IH _ _ H m), !in_app_iff. simpl. split.
    + intros [[Hm|[Hm|Hm]]|(c & s & Hc & Hs & Hm)]; eauto 10.
    + intros [Hm|(c & s & [<-|Hc] & Hs & Hm)]; eauto 10.
      rewrite E in Hs. injection Hs as <-. destruct Hm as [->|Hm]; auto.
Qed.

Lemma descendants_loop_all recur children acc out :
  views.descendants_loop recur children acc = Some out ->
  forall child, In child children -> exists sub, recur child = Some sub.
Proof.
  revert acc. induction children as [|c rest IH]; simpl; intros acc H child Hc;
    [contradiction|].
  destruct (recur c) as [sub|] eqn:E; [|discriminate].
  destruct Hc as [<-|Hc]; eauto.
Qed.

Lemma descendants_loop_total recur children acc :
  (forall child, In child children -> exists sub, recur child = Some sub) ->
  exists out, views.descendants_loop recur children acc = Some out.
Proof.
  revert acc. induction children as [|child rest IH]; simpl; intros acc H; eauto.
  destruct (H child (or_introl eq_refl)) as [sub ->]. apply IH. eauto.
Qed.

Lemma descendants_loop_ext recur recur' children acc out :
  (forall child sub, In child children -> recur child = Some sub -> recur' child = Some sub) ->
  views.descendants_loop recur children acc = Some out ->
  views.descendants_loop recur' children acc = Some out.
Proof.
  revert acc. induction children as [|child rest IH]; simpl; intros acc H E; auto.
  destruct (recur child) as [sub|] eqn:Es; [|discriminate].
  rewrite (H child sub (or_introl eq_refl) Es). apply IH; eauto.
Qed.

(** What a finished traversal returns: the nodes reachable from the start. *)
Lemma get_category_descendants_spec fuel category out :
  views.get_category_descendants fuel cats category = Some out ->
  forall m, In m out <-> reachable cats (cat_id category) m.
Proof.
  revert category out. induction fuel as [|fuel IH]; simpl; intros category out H m;
    [discriminate|].
  rewrite (descendants_loop_spec _ _ _ _ H m), reachable_inv. simpl. split.
  - intros [[]|(child & sub & Hc & Hs & Hm)].
    apply children_of_In in Hc as [Hin Hp].
    exists child. repeat split; auto.
    destruct Hm as [->|Hm]; [now left | right; now apply (IH _ _ Hs)].
  - intros (c & Hin & Hp & Hm). right.
    assert (Hc : In c (children_of cats (cat_id category))) by now apply children_of_In.
    destruct (descendants_loop_all _ _ _ _ H c Hc) as [sub Hs].
    exists c, sub. repeat split; auto.
    destruct Hm as [->|Hm]; [now left | right; now apply (IH _ _ Hs)].
Qed.

(** More fuel does not change the result of a finished traversal. *)
Lemma get_category_descendants_fuel_S fuel category out :
  views.get_category_descendants fuel cats category = Some out ->
  views.get_category_descendants (S fuel) cats category = Some out.
Proof.
  revert category out. induction fuel as [|fuel IH]; intros category out H;
    [discriminate|].
  change (views.descendants_loop (views.get_category_descendants (S fuel) cats)
            (children_of cats (cat_id category)) [] = Some out).
  simpl in H. eapply descendants_loop_ext; [|exact H].
  intros child sub _ Hs. now apply IH.
Qed.

Lemma get_category_descendants_fuel_le fuel fuel' category out :
  (fuel <= fuel')%nat ->
  views.get_category_descendants fuel cats category = Some out ->
  views.get_category_descendants fuel' cats category = Some out.
Proof.
  induction 1 as [|fuel' Hle IH]; intros H; auto.
  now apply get_category_descendants_fuel_S, IH.
Qed.

(** On an acyclic table the traversal finishes: the nodes on the path from
    the start to the current node are pairwise distinct rows of the table,
    so the path is no longer than the table. *)
Lemma get_category_descendants_total_path :
  acyclic cats ->
  forall fuel category anc,
    In category cats ->
    List.NoDup anc ->
    incl anc (map cat_id cats) ->
    (forall a, In a anc -> reachable cats a (cat_id category)) ->
    (List.length cats <= fuel + List.length anc)%nat ->
    exists out, views.get_category_descendants fuel cats category = Some out.
Proof.
  intros Hacyc.
  induction fuel as [|fuel IH]; intros category anc Hin Hnd Hincl Hanc Hlen.
  - exfalso.
    assert (Hnd' : List.NoDup (cat_id category :: anc)).
    { apply List.NoDup_cons; [|exact Hnd]. intros Ha. exact (Hacyc _ (Hanc _ Ha)). }
    assert (Hincl' : incl (cat_id category :: anc) (map cat_id cats)).
    { intros x [<-|Hx]; [now apply in_map | now apply Hincl]. }
    pose proof (List.NoDup_incl_length Hnd' Hincl') as Hl.
    rewrite length_map in Hl. simpl in Hl, Hlen. lia.
  - simpl. apply descendants_loop_total. intros child Hchild.
    apply children_of_In in Hchild as [Hc Hp].
    assert (Hnot : ~ In (cat_id category) anc).
    { intros Ha. exact (Hacyc _ (Hanc _ Ha)). }
    apply (IH child (cat_id category :: anc)); auto.
    + now apply List.NoDup_cons.
    + intros x [<-|Hx]; [now apply in_map | now apply Hincl].
    + intros a [<-|Ha]; [now apply reach_child|].
      eapply reachable_snoc; eauto.
    + simpl. lia.
Qed.

Lemma get_category_descendants_total fuel category :
  acyclic cats -> In category cats -> (List.length cats <= fuel)%nat ->
  exists out, views.get_category_descendants fuel cats category = Some out.
Proof.
  intros Hacyc Hin Hlen.
  apply (get_category_descendants_total_path Hacyc fuel category []); auto.
  - apply List.NoDup_nil.
  - intros x [].
  - intros a [].
  - simpl. lia.
Qed.

End Scopes.

(** The two modules hold the same traversal. *)
Lemma public_get_category_descendants_eq fuel cats category :
  public_views.get_category_descendants fuel cats category =
  views.get_category_descendants fuel cats category.
Proof. reflexivity. Qed.

Lemma public_descendant_ids_eq fuel cats category :
  public_views.descendant_ids fuel cats category = views.descendant_ids fuel cats category.
Proof. reflexivity. Qed.

Example resolveScope_A :
  views.descendant_ids 3 tree_ABC cat_A = Some [2; 3; 1].
Proof. reflexivity. Qed.

Example resolveScope_B :
  views.descendant_ids 3 tree_ABC cat_B = Some [3; 2].
Proof. reflexivity. Qed.

Example chain6_descendants :
  views.get_category_descendants 6 chain6 (mk_category 10 "division" None "division" 0)
  = Some [11; 12; 13; 14; 15].
Proof. reflexivity. Qed.

Lemma category_id__in_In (ids : list Z) (v : models.Voter) :
  orm.category_id__in ids v = true <-> In (models.category_id v) ids.
Proof.
  unfold orm.category_id__in. rewrite existsb_exists. split.
  - intros (x & Hx & E). apply Z.eqb_eq in E. now rewrite E.
  - intros H. exists (models.category_id v). split; [exact H | apply Z.eqb_refl].
Qed.

(** The views that filter by scope keep the voters of the category and of
    the nodes reachable from it. *)
Lemma scoped_views_voters (cats : list models.Category) (voters : list models.Voter)
    (pk : Z) (n : models.Category) (fuel : nat) :
  notions.acyclic cats -> orm.category_by_id cats pk = Some n ->
  (List.length cats <= fuel)%nat ->
  exists vs,
    views.category_detail fuel cats voters pk = Some vs /\
    (forall s, views.selected_category_id s = Some pk ->
               views.voter_list_category_filter fuel cats s voters = Some vs) /\
    (forall v, In v vs <->
               In v voters /\
               (models.category_id v = pk \/ notions.reachable cats pk (models.category_id v))).
Proof.
  intros Hacyc Hget Hfuel.
  pose proof (find_some _ _ Hget) as [Hin Hid]. apply Z.eqb_eq in Hid.
  destruct (get_category_descendants_total cats fuel n Hacyc Hin Hfuel) as [out Hout].
  pose proof (get_category_descendants_spec cats fuel n out Hout) as Hspec.
  exists (List.filter (orm.category_id__in (out ++ [models.cat_id n])) voters).
  unfold views.category_detail, views.voter_list_category_filter, views.descendant_ids.
  rewrite Hget, Hout. split; [reflexivity|]. split.
  - intros s ->. now rewrite Hget, Hout.
  - intros v. rewrite filter_In, category_id__in_In, in_app_iff, Hspec, Hid. simpl.
    intuition.
Qed.

(** C2. On a finite table of categories whose parent links have no cycle,
    the scope of a node [n] of the table (the list that [voter_list],
    [advanced_voter_search] and [category_detail] build from
    [get_category_descendants(n)] by appending [n.id]) contains [n], every
    node reachable from [n] by child links, and nothing else; for a leaf it
    is [[n]]. *)
Theorem resolve_scope_exact (cats : list models.Category) (n : models.Category) (fuel : nat) :
  notions.acyclic cats -> In n cats -> (List.length cats <= fuel)%nat ->
  exists scope,
    views.descendant_ids fuel cats n = Some scope /\
    public_views.descendant_ids fuel cats n = Some scope /\
    (forall m, In m scope <->
               m = models.cat_id n \/ notions.reachable cats (models.cat_id n) m) /\
    (notions.leaf cats (models.cat_id n) -> scope = [models.cat_id n]).
Proof.
  intros Hacyc Hin Hfuel.
  destruct (get_category_descendants_total cats fuel n Hacyc Hin Hfuel) as [out Hout].
  pose proof (get_category_descendants_spec cats fuel n out Hout) as Hspec.
  exists (out ++ [models.cat_id n]).
  change (public_views.descendant_ids fuel cats n) with (views.descendant_ids fuel cats n).
  unfold views.descendant_ids. rewrite Hout.
  repeat split; auto.
  - rewrite in_app_iff. simpl. rewrite Hspec. intuition.
  - rewrite in_app_iff. simpl. rewrite Hspec. intuition.
  - intros Hleaf. destruct out as [|m out]; [reflexivity|]. exfalso.
    assert (Hm : notions.reachable cats (models.cat_id n) m) by (apply Hspec; now left).
    apply reachable_inv in Hm as (c & Hc & Hp & _). exact (Hleaf c Hc Hp).
Qed.

Lemma resolve_scope_exact_witness :
  exists scope,
    views.descendant_ids 3 tree_ABC cat_A = Some scope /\
    public_views.descendant_ids 3 tree_ABC cat_A = Some scope /\
    (forall m, In m scope <->
               m = models.cat_id cat_A \/ notions.reachable tree_ABC (models.cat_id cat_A) m) /\
    (notions.leaf tree_ABC (models.cat_id cat_A) -> scope = [models.cat_id cat_A]).
Proof.
  apply (resolve_scope_exact tree_ABC cat_A 3).
  - apply (acyclic_of_rank tree_ABC Z.to_nat).
    intros c p [<-|[<-|[<-|[]]]] [=<-]; simpl; lia.
  - simpl. auto.
  - simpl. lia.
Defined.

(** C9. [get_category_descendants] finishes on every finite table whose
    parent links have no cycle, whatever its depth: a traversal depth of the
    size of the table is enough, and any larger one gives the same list. *)
Theorem get_category_descendants_terminates (cats : list models.Category) (n : models.Category) :
  notions.acyclic cats -> In n cats ->
  exists out, forall fuel, (List.length cats <= fuel)%nat ->
    views.get_category_descendants fuel cats n = Some out /\
    public_views.get_category_descendants fuel cats n = Some out.
Proof.
  intros Hacyc Hin.
  destruct (get_category_descendants_total cats (List.length cats) n Hacyc Hin (le_n _))
    as [out Hout].
  exists out. intros fuel Hfuel.
  change (public_views.get_category_descendants fuel cats n)
    with (views.get_category_descendants fuel cats n).
  split; apply (get_category_descendants_fuel_le cats (List.length cats) fuel n out Hfuel Hout).
Qed.

Lemma get_category_descendants_terminates_witness :
  exists out, forall fuel, (List.length chain6 <= fuel)%nat ->
    views.get_category_descendants fuel chain6
      (mk_category 10 "division" None "division" 0) = Some out /\
    public_views.get_category_descendants fuel chain6
      (mk_category 10 "division" None "division" 0) = Some out.
Proof.
  apply (get_category_descendants_terminates chain6).
  - apply (acyclic_of_rank chain6 Z.to_nat).
    intros c p [<-|[<-|[<-|[<-|[<-|[<-|[]]]]]]] [=<-]; simpl; lia.
  - simpl. auto.
Defined.

(** ** Search: lookups, orders, scores *)

Section SearchFacts.
Import Text models orm notions.

Lemma lower_char_idem (c : ascii) : lower_char (lower_char c) = lower_char c.
Proof. destruct c as [[] [] [] [] [] [] [] []]; reflexivity. Qed.

Lemma lower_idem (s : string) : lower (lower s) = lower s.
Proof.
  induction s as [|c s IH]; simpl; [reflexivity|].
  now rewrite lower_char_idem, IH.
Qed.

Lemma icontains_spec (col : option string) (q : string) :
  icontains col q = true <-> ci_contains col q.
Proof.
  unfold icontains, ci_contains. destruct col as [s|].
  - rewrite contains_spec. split.
    + intros (pre & post & E). now exists s, pre, post.
    + intros (s' & pre & post & [= <-] & E). now exists pre, post.
  - split; [discriminate|]. now intros (s & pre & post & [=] & _).
Qed.

Lemma icontains_lower (col : option string) (q : string) :
  icontains col (lower q) = icontains col q.
Proof. unfold icontains. now rewrite lower_idem. Qed.










(** Membership in an annotated and ordered queryset. *)
Lemma annotated_In {A} (le : A * Z -> A * Z -> bool) (keep : A -> bool)
    (score : A -> Z) (db : list A) (v : A) (r : Z) :
  In (v, r) (order_by le (map (fun v => (v, score v)) (List.filter keep db))) <->
  In v db /\ keep v = true /\ r = score v.
Proof.
  rewrite order_by_In, in_map_iff. split.
  - intros (x & [= <- <-] & Hx). apply filter_In in Hx. tauto.
  - intros (Hin & Hk & ->). exists v. split; [reflexivity|]. now apply filter_In.
Qed.


End SearchFacts.

Example spec_example_karim :
  views.api_search_voters [karim_uddin; karim] "karim" 15
  = Some (notions.answer [karim; karim_uddin] "karim" 15) /\
  views.text_queryset [karim_uddin; karim] "karim" = [(karim, 100); (karim_uddin, 90)].
Proof. split; reflexivity. Qed.

Section SearchTheorems.
Import Text models orm notions.











Lemma text_filter_candidate q v :
  views.text_filter q (lower q) v = true <-> text_candidate q v.
Proof.
  unfold views.text_filter, text_candidate.
  rewrite !orb_true_iff, icontains_lower, !icontains_spec. tauto.
Qed.








End SearchTheorems.

(** ** The status audit trail: [update_voter_status] *)

Section AuditTrail.
Import Text models orm.

Lemma voter_by_pk_id table pk voter :
  voter_by_pk table pk = Some voter -> In voter table /\ id voter = pk.
Proof.
  unfold voter_by_pk. intros H. apply find_some in H as [Hin Hid].
  split; [exact Hin | now apply Z.eqb_eq].
Qed.

Lemma voter_by_pk_save_status table pk voter s :
  voter_by_pk table pk = Some voter ->
  voter_by_pk (save_status table (set_status voter s)) pk = Some (set_status voter s).
Proof.
  unfold voter_by_pk, save_status. simpl.
  induction table as [|r rest IH]; simpl; [discriminate|].
  destruct (id r =? pk) eqn:E.
  - intros [= <-]. apply Z.eqb_eq in E. rewrite E, Z.eqb_refl. simpl.
    rewrite E, Z.eqb_refl. reflexivity.
  - intros H. pose proof (find_some _ _ H) as [_ Hid]. apply Z.eqb_eq in Hid.
    rewrite Hid, E. simpl. rewrite E. rewrite Hid in IH. now apply IH.
Qed.

Lemma save_status_other table voter other :
  id other <> id voter ->
  (In other (save_status table voter) <-> In other table).
Proof.
  intros Hne. unfold save_status. rewrite in_map_iff. split.
  - intros (r & Hr & Hin). destruct (id r =? id voter) eqn:E.
    + apply Z.eqb_eq in E. subst other. simpl in Hne. congruence.
    + now subst.
  - intros Hin. exists other. split; [|exact Hin].
    replace (id other =? id voter) with false; [reflexivity|].
    symmetry. now apply Z.eqb_neq.
Qed.

Lemma valid_status_existsb (s : string) :
  existsb (String.eqb s) (map fst STATUS_CHOICES) = true <-> In s (map fst STATUS_CHOICES).
Proof.
  rewrite existsb_exists. split.
  - intros (x & Hx & E). apply String.eqb_eq in E. now subst.
  - intros H. exists s. split; [exact H | apply String.eqb_refl].
Qed.

(** C4.  A call of [update_voter_status] for an existing voter with a valid
    status.  If the status is the voter's current one, no audit entry is
    created, the tables are unchanged and the message is "Status
    unchanged."; otherwise exactly one audit entry is appended, with the
    voter's previous status as [old_status] and the requested one as
    [new_status], the voter's status becomes the requested one and the
    other rows are left as they were. *)
Theorem update_voter_status_audit (now user : Z) (meta : views.Meta) (pk : Z)
    (status_param remarks_param : string) (st : views.Store) (voter : Voter) :
  voter_by_pk (views.Voter_objects st) pk = Some voter ->
  In (strip status_param) (map fst STATUS_CHOICES) ->
  exists st',
    views.update_voter_status now user meta pk status_param remarks_param st = Some st' /\
    (strip status_param = status voter ->
       views.VoterStatusAudit_objects st' = views.VoterStatusAudit_objects st /\
       views.Voter_objects st' = views.Voter_objects st /\
       views.messages st' = views.messages st ++ [views.info_unchanged]) /\
    (strip status_param <> status voter ->
       exists entry,
         views.VoterStatusAudit_objects st' = views.VoterStatusAudit_objects st ++ [entry] /\
         audit_voter entry = pk /\
         old_status entry = status voter /\
         new_status entry = strip status_param /\
         changed_by entry = Some user /\
         voter_by_pk (views.Voter_objects st') pk = Some (set_status voter (strip status_param)) /\
         (forall other, id other <> pk ->
            (In other (views.Voter_objects st') <-> In other (views.Voter_objects st))) /\
         views.messages st' =
           views.messages st ++ [views.success_updated (views.get_status_display (strip status_param))]).
Proof.
  intros Hfind Hvalid. unfold views.update_voter_status. rewrite Hfind.
  apply valid_status_existsb in Hvalid. rewrite Hvalid. simpl negb. cbv iota.
  destruct (voter_by_pk_id _ _ _ Hfind) as [Hin Hid].
  destruct (String.eqb (status voter) (strip status_param)) eqn:E; simpl negb; cbv iota.
  - apply String.eqb_eq in E. eexists. split; [reflexivity|]. split.
    + intros _. simpl. auto.
    + intros Hne. congruence.
  - apply String.eqb_neq in E. eexists. split; [reflexivity|]. split.
    + intros Heq. congruence.
    + intros _. eexists. split; [reflexivity|]. simpl.
      repeat split; auto.
      * now apply voter_by_pk_save_status.
      * apply save_status_other. simpl. congruence.
      * apply save_status_other. simpl. congruence.
Qed.

Lemma update_voter_status_audit_witness :
  exists st',
    views.update_voter_status 1000 7 meta0 1 " dead " "moved" store0 = Some st' /\
    views.VoterStatusAudit_objects st' =
      [ {| audit_voter := 1; changed_by := Some 7; old_status := "present";
           new_status := "dead"; remarks := Some "moved"; changed_at := 1000;
           ip_address := Some "203.0.113.7" |} ] /\
    voter_by_pk (views.Voter_objects st') 1 = Some (set_status karim "dead").
Proof.
  destruct (update_voter_status_audit 1000 7 meta0 1 " dead " "moved" store0 karim)
    as (st' & Hrun & _ & Hchanged).
  - reflexivity.
  - simpl. auto.
  - exists st'. split; [exact Hrun|].
    destruct Hchanged as (entry & Haud & _ & _ & _ & _ & Hv & _); [discriminate|].
    split; [|exact Hv].
    vm_compute in Hrun. injection Hrun as <-. reflexivity.
Defined.

Example update_voter_status_same :
  views.update_voter_status 1000 7 meta0 1 "present" "" store0
  = Some {| views.Voter_objects := [karim; salma];
            views.VoterStatusAudit_objects := [];
            views.messages := [views.info_unchanged] |}.
Proof. reflexivity. Qed.

End AuditTrail.

(** ** The rate limiter: [rate_limit] and [public_rate_limit] *)

Section RateLimiter.
Import Text models orm.

Lemma cache_get_set (c : gmap string (Z * Z)) (now t : Z) (key : string) (v timeout d : Z) :
  now <= t < now + timeout ->
  cache_get (cache_set c now key v timeout) t key d = v.
Proof.
  intros Ht. unfold cache_get, cache_set. rewrite lookup_insert_eq.
  replace (t <? now + timeout) with true; [reflexivity|].
  symmetry. apply Z.ltb_lt. lia.
Qed.

Lemma cache_set_other (c : gmap string (Z * Z)) (now : Z) (key k : string) (v timeout : Z) :
  k <> key -> cache_set c now key v timeout !! k = c !! k.
Proof. intros H. unfold cache_set. now apply lookup_insert_ne. Qed.

(** C5, as the code has it.  One call of the wrapper reads the counter of
    the key made of the view's name and the client address.  Below the
    limit the call is passed on to the view and the counter of that key goes
    up by one, whatever the view answers; every other key is untouched.  At
    or above the limit the call is answered with the 429 response and the
    cache, hence the counter, is left as it was. *)
Theorem rate_limit_counter {P R : Type} (requests_per_minute : Z) (view_name : string)
    (view_func : views.Request P -> R) (now : Z) (cache : gmap string (Z * Z))
    (request : views.Request P) :
  let ip := views.get_client_ip (views.META request) in
  let key := "rate_limit:" +:+ view_name +:+ ":" +:+ ip in
  let public_key := "public_rate_limit:" +:+ view_name +:+ ":" +:+ ip in
  let limited := views.rate_limit requests_per_minute view_name view_func now cache request in
  let public_limited :=
    public_views.public_rate_limit requests_per_minute view_name view_func now cache request in
  (if cache_get cache now key 0 <? requests_per_minute then
     fst limited = views.Passed (view_func request) /\
     cache_get (snd limited) now key 0 = cache_get cache now key 0 + 1 /\
     (forall k, k <> key -> snd limited !! k = cache !! k)
   else
     limited = (views.TooManyRequests 60, cache)) /\
  (if cache_get cache now public_key 0 <? requests_per_minute then
     fst public_limited = views.Passed (view_func request) /\
     cache_get (snd public_limited) now public_key 0 = cache_get cache now public_key 0 + 1 /\
     (forall k, k <> public_key -> snd public_limited !! k = cache !! k)
   else
     public_limited = (views.TooManyRequests 60, cache)).
Proof.
  cbv zeta. unfold views.rate_limit, public_views.public_rate_limit, views.get_client_ip.
  split.
  - match goal with |- context [cache_get cache now ?k 0 <? _] => set (key := k) end.
    rewrite Z.geb_leb.
    destruct (cache_get cache now key 0 <? requests_per_minute) eqn:E.
    + replace (requests_per_minute <=? cache_get cache now key 0) with false
        by (symmetry; apply Z.leb_gt; now apply Z.ltb_lt).
      simpl. repeat split.
      * apply cache_get_set. lia.
      * intros k Hk. now apply cache_set_other.
    + replace (requests_per_minute <=? cache_get cache now key 0) with true
        by (symmetry; apply Z.leb_le; now apply Z.ltb_ge).
      reflexivity.
  - match goal with |- context [cache_get cache now ?k 0 <? _] => set (key := k) end.
    rewrite Z.geb_leb.
    destruct (cache_get cache now key 0 <? requests_per_minute) eqn:E.
    + replace (requests_per_minute <=? cache_get cache now key 0) with false
        by (symmetry; apply Z.leb_gt; now apply Z.ltb_lt).
      simpl. repeat split.
      * apply cache_get_set. lia.
      * intros k Hk. now apply cache_set_other.
    + replace (requests_per_minute <=? cache_get cache now key 0) with true
        by (symmetry; apply Z.leb_le; now apply Z.ltb_ge).
      reflexivity.
Qed.

Lemma rate_limit_counter_witness :
  let cache : gmap string (Z * Z) := {[ key0 := (1, 60) ]} in
  let limited := views.rate_limit 2 "api_search_voters" (fun _ => tt) 30 cache request0 in
  fst limited = views.Passed tt /\
  cache_get (snd limited) 30 key0 0 = 2.
Proof.
  cbv zeta.
  pose proof (rate_limit_counter 2 "api_search_voters" (fun _ : views.Request unit => tt)
                30 {[ key0 := (1, 60) ]} request0) as [H _].
  vm_compute in H. vm_compute. destruct H as (H1 & H2 & _). split; assumption.
Defined.

(** C5 as stated fails: of three calls in one window with a limit of two,
    the third is rejected and leaves the counter at two. *)
Lemma rate_limit_rejected_call_not_counted :
  let view := fun _ : views.Request unit => tt in
  let call1 := views.rate_limit 2 "api_search_voters" view 0 ∅ request0 in
  let call2 := views.rate_limit 2 "api_search_voters" view 1 (snd call1) request0 in
  let call3 := views.rate_limit 2 "api_search_voters" view 2 (snd call2) request0 in
  fst call1 = views.Passed tt /\ fst call2 = views.Passed tt /\
  fst call3 = views.TooManyRequests 60 /\
  cache_get (snd call2) 2 key0 0 = 2 /\
  cache_get (snd call3) 2 key0 0 = 2 /\
  cache_get (snd call3) 2 key0 0 <> 3.
Proof. vm_compute. repeat split; congruence. Qed.

End RateLimiter.

(** ** Scope identifiers that match no category *)

Section UnknownScope.
Import Text models orm.





End UnknownScope.

(** ** Suggestions: deduplication and order *)

Section Suggestions.
Import Text models orm notions.

Lemma key_le_total a b : views.key_le a b = false -> views.key_le b a = true.
Proof.
  unfold views.key_le. intros H.
  apply orb_false_elim in H as [H1 H2]. apply Z.ltb_ge in H1.
  destruct (Z.eq_dec (fst a) (fst b)) as [E|E].
  - rewrite E, Z.eqb_refl in *. simpl in *. apply str_le_total in H2.
    rewrite H2. apply orb_true_r.
  - replace (fst b <? fst a) with true; [reflexivity|]. symmetry. apply Z.ltb_lt. lia.
Qed.

Lemma key_le_trans a b c :
  views.key_le a b = true -> views.key_le b c = true -> views.key_le a c = true.
Proof.
  unfold views.key_le. intros H1 H2.
  apply orb_prop in H1, H2. apply orb_true_iff.
  destruct H1 as [H1|H1], H2 as [H2|H2];
    repeat match goal with
           | H : (_ && _)%bool = true |- _ => apply andb_prop in H as [? ?]
           | H : (_ <? _) = true |- _ => apply Z.ltb_lt in H
           | H : (_ =? _) = true |- _ => apply Z.eqb_eq in H
           end.
  - left. apply Z.ltb_lt. lia.
  - left. apply Z.ltb_lt. lia.
  - left. apply Z.ltb_lt. lia.
  - right. apply andb_true_intro. split; [apply Z.eqb_eq; lia|].
    eapply str_le_trans; eauto.
Qed.

Lemma sort_key_before query_lower a b :
  views.key_le (views.sort_key query_lower a) (views.sort_key query_lower b) = true ->
  suggestion_before query_lower a b.
Proof.
  unfold views.key_le, views.sort_key, suggestion_before. simpl.
  destruct (startswith (lower (views.text a)) query_lower),
           (startswith (lower (views.text b)) query_lower); simpl; auto; discriminate.
Qed.

(** The order half of the suggestion contract holds for every request that
    is answered. *)
Lemma suggestions_ordered cats db q fld limit upazila_id union_id voter_area_id resp :
  views.api_search_suggestions cats db q fld limit upazila_id union_id voter_area_id
    = Some resp ->
  StronglySorted (suggestion_before (lower (strip q))) (views.suggestions resp).
Proof.
  unfold views.api_search_suggestions.
  destruct (String.length (strip q) <? 2)%nat.
  - intros [= <-]. constructor.
  - destruct (slice _ _) as [vals|]; [|discriminate]. intros [= <-]. simpl.
    eapply StronglySorted_weaken; [apply sort_key_before|].
    apply (order_by_sorted
             (fun a b => views.key_le (views.sort_key (lower (strip q)) a)
                                      (views.sort_key (lower (strip q)) b))).
    + intros a b. apply key_le_total.
    + intros a b c. apply key_le_trans.
Qed.

Lemma distinct_In (x : option string) (vals : list (option string)) :
  In x (distinct vals) -> In x vals.
Proof.
  induction vals as [|y vals IH]; simpl; [tauto|].
  intros [->|H]; [now left|]. apply filter_In in H as [H _]. auto.
Qed.

(** The loop keeps the lowercase forms of its entries pairwise distinct as
    long as the values it reads carry no surrounding white space. *)
Lemma suggestions_loop_distinct limit fld vals seen acc :
  (forall s, In (Some s) vals -> strip s = s) ->
  (forall x, In x acc -> lower (views.text x) ∈ seen) ->
  List.NoDup (map (fun x => lower (views.text x)) acc) ->
  List.NoDup (map (fun x => lower (views.text x))
                (views.suggestions_loop limit fld vals seen acc)).
Proof.
  revert seen acc. induction vals as [|value rest IH]; simpl; intros seen acc Hpad Hseen Hnd;
    [exact Hnd|].
  assert (Hrest : forall s, In (Some s) rest -> strip s = s) by auto.
  destruct value as [value|]; [|now apply IH].
  destruct (truthy value && truthy (strip value)); [|now apply IH].
  case_bool_decide as Hin; [now apply IH|].
  assert (Hnd' : List.NoDup
            (map (fun x => lower (views.text x))
               (acc ++ [ {| views.text := strip value; views.field := fld |} ]))).
  { rewrite map_app. simpl. rewrite (Hpad value (or_introl eq_refl)).
    apply List.NoDup_app; [exact Hnd | repeat constructor; intros [] |].
    intros x Hx [<-|[]]. apply in_map_iff in Hx as (y & Ey & Hy).
    apply Hin. rewrite <- Ey. now apply Hseen. }
  destruct (Z.of_nat _ >=? limit); [exact Hnd'|].
  apply IH; auto.
  intros x Hx. apply in_app_or in Hx as [Hx|[<-|[]]].
  - apply elem_of_union_r. now apply Hseen.
  - simpl. rewrite (Hpad value (or_introl eq_refl)). apply elem_of_union_l.
    now apply elem_of_singleton.
Qed.

(** Without padded values in the column the answer has no two entries that
    differ by letter case only. *)
Lemma suggestions_distinct_without_padding cats db q fld limit up un va resp :
  (forall v s, In v db -> views.field_value
       (let f := lower (strip fld) in
        if existsb (String.eqb f) ["name"; "father"; "mother"; "address"] then f else "name")
       v = Some s -> strip s = s) ->
  views.api_search_suggestions cats db q fld limit up un va = Some resp ->
  List.NoDup (map (fun x => lower (views.text x)) (views.suggestions resp)).
Proof.
  intros Hpad. unfold views.api_search_suggestions.
  destruct (String.length (strip q) <? 2)%nat.
  - intros [= <-]. apply List.NoDup_nil.
  - unfold slice. destruct (_ <? 0); [discriminate|]. intros [= <-]. simpl.
    eapply (Permutation_NoDup (l := map _ _)).
    { apply Permutation_map. apply order_by_perm. }
    apply suggestions_loop_distinct.
    + intros s Hs. apply firstn_In, distinct_In, in_map_iff in Hs as (v & Hv & Hin).
      apply filter_In in Hin as [Hin _].
      eapply Hpad; [|exact Hv].
      revert Hin. unfold views.suggestions_category_filter.
      repeat match goal with
             | |- context [match ?x with _ => _ end] => destruct x
             end; try (intros H; apply filter_In in H as [H _]); auto.
    + intros x [].
    + apply List.NoDup_nil.
Qed.

(** C8, the code at the failing input.  The stored names ["Karim "] (with a
    trailing space) and ["karim"] have different lowercase forms, so the
    loop keeps both, and it appends their stripped texts: the answer of
    either suggestion operation holds ["Karim"] and ["karim"], two entries
    that differ by letter case only. *)
Theorem suggestions_case_duplicates :
  let expected :=
    {| views.suggestions := [ {| views.text := "Karim"; views.field := "name" |};
                              {| views.text := "karim"; views.field := "name" |} ];
       views.s_field := Some "name"; views.s_query := Some "ka";
       views.s_count := Some 2%nat |} in
  views.api_search_suggestions [] [karim_padded; karim_small] "ka" "name" 10 None None None
    = Some expected /\
  public_views.public_api_suggestions [] [karim_padded; karim_small] "ka" "name" 10
    None None None = Some expected /\
  same_ignoring_case {| views.text := "Karim"; views.field := "name" |}
                     {| views.text := "karim"; views.field := "name" |} /\
  "Karim" <> "karim".
Proof.
  cbv zeta. repeat split; try (vm_compute; reflexivity). discriminate.
Qed.

End Suggestions.

(** ** The derived column [search_text] *)

Section SearchText.
Import Text models orm notions.

Lemma write_row_In table v : In v (write_row table v).
Proof.
  induction table as [|r rest IH]; simpl; [now left|].
  destruct (id r =? id v); simpl; auto.
Qed.

(** [Voter.save] stores the row with a current [search_text]. *)
Lemma save_search_text_current table v :
  exists row, In row (save table v) /\ search_text_current row /\
              row = set_search_text v (Some (build_search_text v)).
Proof.
  eexists. split; [apply write_row_In|]. split; reflexivity.
Qed.

(** The repair command makes every row current. *)
Lemma update_search_text_current table row :
  In row (commands.update_search_text table) -> search_text_current row.
Proof.
  unfold commands.update_search_text. rewrite in_map_iff.
  intros (v & <- & _). reflexivity.
Qed.

(** C6, the code at the failing input.  The import writes its rows with
    [bulk_create], which does not go through [Voter.save]: the row created
    from a spreadsheet line is stored with [search_text = NULL], not with
    the lowercase join of its fields. *)
Theorem import_leaves_search_text_null :
  exists row,
    commands._process_excel_file [] cat_C "male_voters.xlsx" [row_karim] = [row] /\
    name row = Some "Karim" /\
    search_text row = None /\
    build_search_text row = "7 karim abdul dhaka 123 farmer" /\
    ~ search_text_current row.
Proof.
  eexists. split; [reflexivity|]. repeat split. discriminate.
Qed.

End SearchText.

(** * Further properties of the code *)

(** ** The rate limiter over a sequence of calls *)

Section LimiterSequences.
Import Text models orm notions.
Context {R : Type}.
Variable wrapper : Z -> gmap string (Z * Z) -> views.Limited R * gmap string (Z * Z).
Variable key : string.
Variable limit : Z.
Variable response : R.

(** What one call does, as both wrappers do it. *)
Hypothesis wrapper_step : forall now cache,
  wrapper now cache =
  if cache_get cache now key 0 <? limit then
    (views.Passed response, cache_set cache now key (cache_get cache now key 0 + 1) 60)
  else (views.TooManyRequests 60, cache).

Lemma cache_get_zero_later (cache : gmap string (Z * Z)) (t0 t : Z) :
  cache_get cache t0 key 0 = 0 -> t0 <= t -> cache_get cache t key 0 = 0.
Proof.
  unfold cache_get. destruct (cache !! key) as [[v expires]|]; [|reflexivity].
  destruct (t0 <? expires) eqn:E0, (t <? expires) eqn:E; auto.
  apply Z.ltb_ge in E0. apply Z.ltb_lt in E. lia.
Qed.

Lemma counter_reads_set (cache : gmap string (Z * Z)) (from t v : Z) :
  from <= t -> counter_reads key (cache_set cache t key v 60) v from.
Proof.
  intros Ht t' Ht'. unfold cache_get, cache_set. rewrite lookup_insert_eq.
  replace (t' <? t + 60) with true; [reflexivity|]. symmetry. apply Z.ltb_lt. lia.
Qed.

Lemma first_pass_shift (cnt : Z) (n : nat) :
  map (fun i => if cnt + Z.of_nat i <? limit then views.Passed response
                else views.TooManyRequests 60) (seq 1 n)
  = map (fun i => if (cnt + 1) + Z.of_nat i <? limit then views.Passed response
                  else views.TooManyRequests 60) (seq 0 n).
Proof.
  rewrite <- seq_shift, map_map. apply map_ext. intros i.
  replace (cnt + Z.of_nat (S i)) with (cnt + 1 + Z.of_nat i) by lia. reflexivity.
Qed.

(** Calls that all fall in one span of 60 time units. *)
Lemma serve_window (t0 : Z) (times : list Z) :
  forall cache cnt,
    counter_reads key cache cnt t0 ->
    Forall (fun t => t0 <= t < t0 + 60) times ->
    fst (serve wrapper cache times)
    = map (fun i => if cnt + Z.of_nat i <? limit then views.Passed response
                    else views.TooManyRequests 60) (seq 0 (List.length times)).
Proof.
  induction times as [|t rest IH]; intros cache cnt Hc Hall; [reflexivity|].
  apply List.Forall_cons_iff in Hall as [Ht Hrest].
  simpl. rewrite wrapper_step, (Hc t Ht), Z.add_0_r.
  destruct (cnt <? limit) eqn:E; simpl; f_equal.
  - rewrite first_pass_shift. apply IH; [|exact Hrest].
    apply counter_reads_set. lia.
  - rewrite (IH cache cnt Hc Hrest). rewrite <- seq_shift, map_map.
    apply map_ext. intros i. apply Z.ltb_ge in E.
    replace (cnt + Z.of_nat i <? limit) with false by (symmetry; apply Z.ltb_ge; lia).
    replace (cnt + Z.of_nat (S i) <? limit) with false by (symmetry; apply Z.ltb_ge; lia).
    reflexivity.
Qed.

(** Calls each less than 60 time units after the one before. *)
Lemma serve_closely_spaced (times : list Z) :
  forall cache cnt prev,
    counter_reads key cache cnt prev ->
    closely_spaced prev times ->
    cnt + Z.of_nat (List.length times) <= limit + 1 ->
    fst (serve wrapper cache times)
    = map (fun i => if cnt + Z.of_nat i <? limit then views.Passed response
                    else views.TooManyRequests 60) (seq 0 (List.length times)).
Proof.
  induction times as [|t rest IH]; intros cache cnt prev Hc Hsp Hlen; [reflexivity|].
  destruct Hsp as [Ht Hrest].
  simpl. rewrite wrapper_step, (Hc t Ht), Z.add_0_r.
  destruct (cnt <? limit) eqn:E; simpl; f_equal.
  - rewrite first_pass_shift. apply (IH _ _ t); [|exact Hrest|].
    + intros t' Ht'. unfold cache_get, cache_set. rewrite lookup_insert_eq.
      replace (t' <? t + 60) with true; [reflexivity|]. symmetry. apply Z.ltb_lt. lia.
    + simpl List.length in Hlen. lia.
  - apply Z.ltb_ge in E. destruct rest as [|t' rest]; [reflexivity|].
    simpl List.length in Hlen. lia.
Qed.

(** Whatever was served within the span from [t0], every counter entry
    written has run out 120 time units after [t0]. *)
Lemma serve_window_expired (t0 : Z) (times : list Z) :
  forall cache,
    (forall t, t0 + 120 <= t -> cache_get cache t key 0 = 0) ->
    Forall (fun t => t0 <= t < t0 + 60) times ->
    forall t, t0 + 120 <= t -> cache_get (snd (serve wrapper cache times)) t key 0 = 0.
Proof.
  induction times as [|t1 rest IH]; intros cache Hc Hall t Ht; [now apply Hc|].
  apply List.Forall_cons_iff in Hall as [Ht1 Hrest].
  simpl. apply IH; auto. rewrite wrapper_step.
  destruct (_ <? limit); simpl; [|exact Hc].
  intros t' Ht'. unfold cache_get, cache_set. rewrite lookup_insert_eq.
  replace (t' <? t1 + 60) with false; [reflexivity|]. symmetry. apply Z.ltb_ge. lia.
Qed.

End LimiterSequences.

Section LimiterTheorems.
Import Text models orm notions.
Context {P R : Type}.
Variable requests_per_minute : Z.
Variable view_name : string.
Variable view_func : views.Request P -> R.
Variable request : views.Request P.

Let ip := views.get_client_ip (views.META request).
Let key := "rate_limit:" +:+ view_name +:+ ":" +:+ ip.
Let public_key := "public_rate_limit:" +:+ view_name +:+ ":" +:+ ip.
Let limited := fun now cache =>
  views.rate_limit requests_per_minute view_name view_func now cache request.
Let public_limited := fun now cache =>
  public_views.public_rate_limit requests_per_minute view_name view_func now cache request.

Lemma rate_limit_step (now : Z) (cache : gmap string (Z * Z)) :
  limited now cache =
  if cache_get cache now key 0 <? requests_per_minute then
    (views.Passed (view_func request),
     cache_set cache now key (cache_get cache now key 0 + 1) 60)
  else (views.TooManyRequests 60, cache).
Proof.
  unfold limited, views.rate_limit, key, ip, views.get_client_ip.
  match goal with |- context [cache_get cache now ?k 0] => generalize k end.
  intros k. rewrite Z.geb_leb, Z.leb_antisym.
  destruct (cache_get cache now k 0 <? requests_per_minute); reflexivity.
Qed.

Lemma public_rate_limit_step (now : Z) (cache : gmap string (Z * Z)) :
  public_limited now cache =
  if cache_get cache now public_key 0 <? requests_per_minute then
    (views.Passed (view_func request),
     cache_set cache now public_key (cache_get cache now public_key 0 + 1) 60)
  else (views.TooManyRequests 60, cache).
Proof.
  unfold public_limited, public_views.public_rate_limit, public_key, ip,
    views.get_client_ip.
  match goal with |- context [cache_get cache now ?k 0] => generalize k end.
  intros k. rewrite Z.geb_leb, Z.leb_antisym.
  destruct (cache_get cache now k 0 <? requests_per_minute); reflexivity.
Qed.

Lemma first_pass_from_zero (n : nat) :
  map (fun i => if 0 + Z.of_nat i <? requests_per_minute
                then views.Passed (view_func request)
                else views.TooManyRequests 60) (seq 0 n)
  = first_pass requests_per_minute (view_func request) n.
Proof. reflexivity. Qed.

(** X1.  One client, one view, calls that all fall within 60 time units
    from [t0], no live counter at [t0]: the first [requests_per_minute]
    calls are passed on to the view and every later one gets the 429
    answer.  Both wrappers. *)
Theorem rate_limit_window (cache : gmap string (Z * Z)) (t0 : Z) (times : list Z) :
  cache_get cache t0 key 0 = 0 ->
  cache_get cache t0 public_key 0 = 0 ->
  Forall (fun t => t0 <= t < t0 + 60) times ->
  fst (serve limited cache times)
    = first_pass requests_per_minute (view_func request) (List.length times) /\
  fst (serve public_limited cache times)
    = first_pass requests_per_minute (view_func request) (List.length times).
Proof.
  intros H0 H0' Hall. split; rewrite <- first_pass_from_zero.
  - apply (serve_window limited key requests_per_minute (view_func request)
             rate_limit_step t0); auto.
    intros t Ht. apply (cache_get_zero_later key cache t0); [exact H0 | lia].
  - apply (serve_window public_limited public_key requests_per_minute (view_func request)
             public_rate_limit_step t0); auto.
    intros t Ht. apply (cache_get_zero_later public_key cache t0); [exact H0' | lia].
Qed.

(** X2.  The window is not a fixed one: it restarts at every call that is
    let through.  When each call comes less than 60 time units after the one
    before, however long the whole sequence takes, the first
    [requests_per_minute] calls are passed and the next one is rejected. *)
Theorem rate_limit_closely_spaced (cache : gmap string (Z * Z)) (t1 : Z) (rest : list Z) :
  cache_get cache t1 key 0 = 0 ->
  cache_get cache t1 public_key 0 = 0 ->
  closely_spaced t1 rest ->
  Z.of_nat (List.length (t1 :: rest)) <= requests_per_minute + 1 ->
  fst (serve limited cache (t1 :: rest))
    = first_pass requests_per_minute (view_func request) (List.length (t1 :: rest)) /\
  fst (serve public_limited cache (t1 :: rest))
    = first_pass requests_per_minute (view_func request) (List.length (t1 :: rest)).
Proof.
  intros H0 H0' Hsp Hlen. split; rewrite <- first_pass_from_zero.
  - apply (serve_closely_spaced limited key requests_per_minute (view_func request)
             rate_limit_step (t1 :: rest) cache 0 t1).
    + intros t Ht. apply (cache_get_zero_later key cache t1); [exact H0 | lia].
    + split; [lia | exact Hsp].
    + lia.
  - apply (serve_closely_spaced public_limited public_key requests_per_minute
             (view_func request) public_rate_limit_step (t1 :: rest) cache 0 t1).
    + intros t Ht. apply (cache_get_zero_later public_key cache t1); [exact H0' | lia].
    + split; [lia | exact Hsp].
    + lia.
Qed.

(** X3.  The limiter recovers: after any calls made within 60 time units
    from [t0], a call made 120 time units after [t0] or later is let
    through (for a positive limit) and starts the counter again at one. *)
Theorem rate_limit_recovers (cache : gmap string (Z * Z)) (t0 t : Z) (times : list Z) :
  cache_get cache t0 key 0 = 0 ->
  cache_get cache t0 public_key 0 = 0 ->
  Forall (fun t => t0 <= t < t0 + 60) times ->
  1 <= requests_per_minute ->
  t0 + 120 <= t ->
  (let after := limited t (snd (serve limited cache times)) in
   fst after = views.Passed (view_func request) /\
   cache_get (snd after) t key 0 = 1) /\
  (let after := public_limited t (snd (serve public_limited cache times)) in
   fst after = views.Passed (view_func request) /\
   cache_get (snd after) t public_key 0 = 1).
Proof.
  intros H0 H0' Hall Hpos Ht. split; cbv zeta.
  - rewrite rate_limit_step.
    rewrite (serve_window_expired limited key requests_per_minute (view_func request)
               rate_limit_step t0 times cache); auto.
    + replace (0 <? requests_per_minute) with true by (symmetry; apply Z.ltb_lt; lia).
      simpl. split; [reflexivity|]. apply cache_get_set. lia.
    + intros t' Ht'. apply (cache_get_zero_later key cache t0); [exact H0 | lia].
  - rewrite public_rate_limit_step.
    rewrite (serve_window_expired public_limited public_key requests_per_minute
               (view_func request) public_rate_limit_step t0 times cache); auto.
    + replace (0 <? requests_per_minute) with true by (symmetry; apply Z.ltb_lt; lia).
      simpl. split; [reflexivity|]. apply cache_get_set. lia.
    + intros t' Ht'. apply (cache_get_zero_later public_key cache t0); [exact H0' | lia].
Qed.

End LimiterTheorems.

Section LimiterIsolation.
Import Text models orm notions.





Lemma rate_limit_window_witness :
  fst (serve (fun now c => views.rate_limit 2 "api_search_voters" (fun _ => tt) now c request0)
         ∅ [0; 10; 59])
  = [views.Passed tt; views.Passed tt; views.TooManyRequests 60].
Proof.
  pose proof (rate_limit_window 2 "api_search_voters" (fun _ : views.Request unit => tt)
                request0 ∅ 0 [0; 10; 59]) as H.
  destruct H as [H _].
  - vm_compute. reflexivity.
  - vm_compute. reflexivity.
  - repeat constructor; lia.
  - exact H.
Defined.

Lemma rate_limit_closely_spaced_witness :
  fst (serve (fun now c => views.rate_limit 2 "api_search_voters" (fun _ => tt) now c request0)
         ∅ [0; 59; 118])
  = [views.Passed tt; views.Passed tt; views.TooManyRequests 60].
Proof.
  pose proof (rate_limit_closely_spaced 2 "api_search_voters"
                (fun _ : views.Request unit => tt) request0 ∅ 0 [59; 118]) as H.
  destruct H as [H _].
  - vm_compute. reflexivity.
  - vm_compute. reflexivity.
  - simpl. lia.
  - simpl. lia.
  - exact H.
Defined.

Lemma rate_limit_recovers_witness :
  let after :=
    views.rate_limit 2 "api_search_voters" (fun _ => tt) 120
      (snd (serve (fun now c =>
                     views.rate_limit 2 "api_search_voters" (fun _ => tt) now c request0)
              ∅ [0; 10; 59])) request0 in
  fst after = views.Passed tt /\ cache_get (snd after) 120 key0 0 = 1.
Proof.
  pose proof (rate_limit_recovers 2 "api_search_voters" (fun _ : views.Request unit => tt)
                request0 ∅ 0 120 [0; 10; 59]) as H.
  destruct H as [H _].
  - vm_compute. reflexivity.
  - vm_compute. reflexivity.
  - repeat constructor; lia.
  - lia.
  - lia.
  - exact H.
Defined.

End LimiterIsolation.

(** ** More on the status audit trail *)

Section AuditInvariants.
Import Text models orm notions.

Lemma unique_ids_eq (table : list Voter) (a b : Voter) :
  unique_ids table -> In a table -> In b table -> id a = id b -> a = b.
Proof.
  unfold unique_ids. induction table as [|r rest IH]; simpl; [tauto|].
  intros Hnd Ha Hb E. apply List.NoDup_cons_iff in Hnd as [Hr Hnd].
  destruct Ha as [<-|Ha], Hb as [<-|Hb]; auto.
  - exfalso. apply Hr. rewrite E. now apply in_map.
  - exfalso. apply Hr. rewrite <- E. now apply in_map.
Qed.

Lemma save_status_ids (table : list Voter) (v : Voter) :
  map id (save_status table v) = map id table.
Proof.
  unfold save_status. rewrite map_map. apply map_ext.
  intros r. destruct (id r =? id v); reflexivity.
Qed.

Lemma save_status_columns (table : list Voter) (v : Voter) (s : string) :
  map (fun r => set_status r s) (save_status table v) = map (fun r => set_status r s) table.
Proof.
  unfold save_status. rewrite map_map. apply map_ext.
  intros r. destruct (id r =? id v); reflexivity.
Qed.

Lemma trail_app (log more : list VoterStatusAudit) (pk : Z) :
  trail (log ++ more) pk = trail log pk ++ trail more pk.
Proof. unfold trail. apply List.filter_app. Qed.

(** What a call does, case by case. *)
Lemma update_voter_status_cases (now user : Z) (meta : views.Meta) (pk : Z)
    (status_param remarks_param : string) (st st' : views.Store) :
  views.update_voter_status now user meta pk status_param remarks_param st = Some st' ->
  exists voter,
    voter_by_pk (views.Voter_objects st) pk = Some voter /\
    ((views.Voter_objects st' = views.Voter_objects st /\
      views.VoterStatusAudit_objects st' = views.VoterStatusAudit_objects st /\
      (~ In (strip status_param) (map fst STATUS_CHOICES) \/
       strip status_param = status voter)) \/
     (In (strip status_param) (map fst STATUS_CHOICES) /\
      strip status_param <> status voter /\
      views.Voter_objects st' =
        save_status (views.Voter_objects st) (set_status voter (strip status_param)) /\
      exists entry,
        views.VoterStatusAudit_objects st' = views.VoterStatusAudit_objects st ++ [entry] /\
        audit_voter entry = pk /\ old_status entry = status voter /\
        new_status entry = strip status_param)).
Proof.
  unfold views.update_voter_status.
  destruct (voter_by_pk (views.Voter_objects st) pk) as [voter|] eqn:Hfind; [|discriminate].
  pose proof (voter_by_pk_id _ _ _ Hfind) as [_ Hid].
  destruct (existsb (String.eqb (strip status_param)) (map fst STATUS_CHOICES)) eqn:Hv;
    simpl negb; cbv iota.
  - apply valid_status_existsb in Hv.
    destruct (String.eqb (status voter) (strip status_param)) eqn:E; simpl negb; cbv iota;
      intros [= <-]; exists voter; split; auto.
    + apply String.eqb_eq in E. left. simpl. auto.
    + apply String.eqb_neq in E. right. simpl. repeat split; auto.
      eexists. split; [reflexivity|]. simpl. auto.
  - intros [= <-]. exists voter. split; auto. left. simpl. repeat split; auto.
    left. intros H. apply valid_status_existsb in H. congruence.
Qed.



(** X6.  The audit trail is an invariant of the store.  When primary keys
    are unique and every voter's trail is chained up to the voter's stored
    status, the same holds after any call of [update_voter_status]: each
    entry changes the status into a valid one, starts from the status the
    entry before it led to, and the newest entry of a voter carries the
    voter's current status. *)
Theorem update_voter_status_keeps_trail (now user : Z) (meta : views.Meta) (pk : Z)
    (status_param remarks_param : string) (st st' : views.Store) :
  unique_ids (views.Voter_objects st) ->
  trail_consistent st ->
  views.update_voter_status now user meta pk status_param remarks_param st = Some st' ->
  unique_ids (views.Voter_objects st') /\ trail_consistent st'.
Proof.
  intros Huniq Hinv Hrun.
  destruct (update_voter_status_cases _ _ _ _ _ _ _ _ Hrun)
    as (voter & Hfind & [(Hv & Ha & _) | (Hvalid & Hne & Hv & entry & Ha & He1 & He2 & He3)]).
  - split; [now rewrite Hv|]. unfold trail_consistent. now rewrite Hv, Ha.
  - pose proof (voter_by_pk_id _ _ _ Hfind) as [Hin Hid].
    split; [unfold unique_ids; now rewrite Hv, save_status_ids|].
    intros v' Hv'. rewrite Hv in Hv'. unfold save_status in Hv'.
    apply in_map_iff in Hv' as (r & Hr & Hrin). simpl in Hr.
    rewrite Ha, trail_app, rev_app_distr.
    destruct (id r =? id voter) eqn:E.
    + apply Z.eqb_eq in E.
      assert (r = voter) by (apply (unique_ids_eq (views.Voter_objects st)); auto).
      subst r v'. unfold trail at 1. simpl.
      rewrite He1, Hid, Z.eqb_refl. simpl.
      split; [exact He3|]. split; [congruence|]. split; [now rewrite He3|].
      rewrite He2. rewrite <- Hid. now apply Hinv.
    + subst v'. unfold trail at 1. simpl.
      replace (audit_voter entry =? id r) with false; [simpl; now apply Hinv|].
      symmetry. apply Z.eqb_neq. apply Z.eqb_neq in E. congruence.
Qed.

Lemma update_voter_status_keeps_trail_witness :
  exists st',
    views.update_voter_status 1000 7 meta0 1 "dead" "" store0 = Some st' /\
    unique_ids (views.Voter_objects st') /\ trail_consistent st'.
Proof.
  eexists. split; [reflexivity|].
  apply (update_voter_status_keeps_trail 1000 7 meta0 1 "dead" "" store0).
  - repeat constructor; simpl; intuition discriminate.
  - intros v _. exact I.
  - reflexivity.
Defined.

(** X7.  The audit log is append-only and only the status column is
    written.  Any call that is answered keeps every earlier audit entry in
    place, adds at most one entry at the end, keeps the rows and their
    primary keys, and leaves every column but [status] as it was. *)
Theorem update_voter_status_append_only (now user : Z) (meta : views.Meta) (pk : Z)
    (status_param remarks_param : string) (st st' : views.Store) :
  views.update_voter_status now user meta pk status_param remarks_param st = Some st' ->
  (exists added,
     views.VoterStatusAudit_objects st' = views.VoterStatusAudit_objects st ++ added /\
     (List.length added <= 1)%nat) /\
  map id (views.Voter_objects st') = map id (views.Voter_objects st) /\
  (forall s, map (fun r => set_status r s) (views.Voter_objects st')
             = map (fun r => set_status r s) (views.Voter_objects st)) /\
  (forall other, id other <> pk ->
     (In other (views.Voter_objects st') <-> In other (views.Voter_objects st))).
Proof.
  intros Hrun.
  destruct (update_voter_status_cases _ _ _ _ _ _ _ _ Hrun)
    as (voter & Hfind & [(Hv & Ha & _) | (_ & _ & Hv & entry & Ha & _)]).
  - rewrite Hv, Ha. repeat split; auto.
    exists []. rewrite app_nil_r. simpl. auto.
  - pose proof (voter_by_pk_id _ _ _ Hfind) as [_ Hid].
    rewrite Hv, Ha. split; [|split; [|split]].
    + exists [entry]. simpl. auto.
    + apply save_status_ids.
    + intros s. apply save_status_columns.
    + intros other Hother. apply save_status_other. simpl. congruence.
Qed.

Lemma update_voter_status_append_only_witness :
  exists st',
    views.update_voter_status 1000 7 meta0 1 "dead" "" store0 = Some st' /\
    map id (views.Voter_objects st') = [1; 4] /\
    (In salma (views.Voter_objects st') <-> In salma [karim; salma]).
Proof.
  eexists. split; [reflexivity|].
  pose proof (update_voter_status_append_only 1000 7 meta0 1 "dead" "" store0 _ eq_refl)
    as (_ & Hids & _ & Hother).
  split; [exact Hids|]. apply Hother. discriminate.
Defined.

(** X8.  Repeating a call changes nothing more: after a call with some
    status, a second call for the same voter with the same status, at any
    later time and by any user, leaves both tables as the first call left
    them. *)
Theorem update_voter_status_idempotent (now now' user user' : Z) (meta meta' : views.Meta)
    (pk : Z) (status_param remarks_param remarks_param' : string) (st st' : views.Store) :
  views.update_voter_status now user meta pk status_param remarks_param st = Some st' ->
  exists st'',
    views.update_voter_status now' user' meta' pk status_param remarks_param' st' = Some st'' /\
    views.Voter_objects st'' = views.Voter_objects st' /\
    views.VoterStatusAudit_objects st'' = views.VoterStatusAudit_objects st'.
Proof.
  intros Hrun.
  destruct (update_voter_status_cases _ _ _ _ _ _ _ _ Hrun)
    as (voter & Hfind & [(Hv & Ha & Hwhy) | (Hvalid & Hne & Hv & entry & Ha & _)]).
  - unfold views.update_voter_status. rewrite Hv, Hfind.
    destruct Hwhy as [Hbad|Hsame].
    + destruct (existsb (String.eqb (strip status_param)) (map fst STATUS_CHOICES)) eqn:E.
      * apply valid_status_existsb in E. contradiction.
      * simpl. eexists. split; [reflexivity|]. simpl. split; reflexivity.
    + destruct (existsb (String.eqb (strip status_param)) (map fst STATUS_CHOICES)); simpl.
      * rewrite Hsame, String.eqb_refl. simpl.
        eexists. split; [reflexivity|]. simpl. split; reflexivity.
      * eexists. split; [reflexivity|]. simpl. split; reflexivity.
  - unfold views.update_voter_status. rewrite Hv.
    rewrite (voter_by_pk_save_status _ _ _ (strip status_param) Hfind).
    apply valid_status_existsb in Hvalid. rewrite Hvalid. simpl.
    rewrite String.eqb_refl. simpl.
    eexists. split; [reflexivity|]. simpl. split; reflexivity.
Qed.

Lemma update_voter_status_idempotent_witness :
  exists st' st'',
    views.update_voter_status 1000 7 meta0 1 "dead" "" store0 = Some st' /\
    views.update_voter_status 2000 8 meta0 1 "dead" "again" st' = Some st'' /\
    views.Voter_objects st'' = views.Voter_objects st' /\
    views.VoterStatusAudit_objects st'' = views.VoterStatusAudit_objects st'.
Proof.
  eexists.
  destruct (update_voter_status_idempotent 1000 2000 7 8 meta0 meta0 1 "dead" "" "again"
              store0 _ eq_refl) as (st'' & H).
  exists st''. split; [reflexivity | exact H].
Defined.

End AuditInvariants.

(** ** More on the search operations *)

Section SearchMore.
Import Text models orm notions.






















(** X12.  The public text search is a restriction of the authenticated
    one: every row it ranks is ranked by the authenticated search too, never
    with a lower score there, and with the same score unless the public
    score is the baseline 40. *)
Theorem public_text_search_restricts (db : list Voter) (q : string) (v : Voter) (s : Z) :
  In (v, s) (public_views.text_queryset db q) ->
  exists s', In (v, s') (views.text_queryset db q) /\ s <= s' /\ (s <> 40 -> s' = s).
Proof.
  intros H. apply annotated_In in H as (Hin & Hf & ->).
  exists (views.text_relevance q v). split.
  - apply annotated_In. repeat split; auto.
    unfold public_views.text_filter in Hf. unfold views.text_filter.
    apply orb_prop in Hf as [Hf|Hf]; [|rewrite Hf; now rewrite !orb_true_r].
    apply orb_prop in Hf as [Hf|Hf]; [|rewrite Hf; now rewrite !orb_true_r].
    apply orb_prop in Hf as [Hf|Hf]; rewrite Hf; now rewrite ?orb_true_r.
  - unfold public_views.text_relevance, views.text_relevance.
    repeat match goal with
           | |- context [if ?b then _ else _] => destruct b; try (split; [lia | congruence])
           end.
Qed.

Lemma public_text_search_restricts_witness :
  exists s', In (rahim, s') (views.text_queryset [rahim] "karim") /\ 40 <= s' /\
             (40 <> 40 -> s' = 40).
Proof.
  apply (public_text_search_restricts [rahim] "karim" rahim 40).
  simpl. left. reflexivity.
Defined.

Lemma lower_length (s : string) : String.length (lower s) = String.length s.
Proof. induction s as [|c s IH]; simpl; congruence. Qed.

Lemma lower_char_digit (c : ascii) :
  is_digit_char (lower_char c) = true -> lower_char c = c.
Proof. destruct c as [[] [] [] [] [] [] [] []]; (reflexivity || discriminate). Qed.

Lemma lower_char_digit_eq (c : ascii) : is_digit_char (lower_char c) = is_digit_char c.
Proof. destruct c as [[] [] [] [] [] [] [] []]; reflexivity. Qed.

Lemma all_digits_lower (s : string) : all_digits (lower s) = all_digits s.
Proof.
  induction s as [|c s IH]; simpl; [reflexivity|]. now rewrite lower_char_digit_eq, IH.
Qed.

Lemma isdigit_lower (s : string) : isdigit (lower s) = isdigit s.
Proof. destruct s as [|c s]; [reflexivity|]. apply (all_digits_lower (String c s)). Qed.

Lemma all_digits_lower_id (s : string) : all_digits (lower s) = true -> lower s = s.
Proof.
  induction s as [|c s IH]; simpl; [reflexivity|]. intros H.
  apply andb_prop in H as [Hc Hs]. now rewrite (lower_char_digit _ Hc), IH.
Qed.

Lemma digits_same_case (a b : string) :
  lower a = lower b -> isdigit a = true -> a = b.
Proof.
  intros E Ha.
  assert (Hda : all_digits (lower a) = true).
  { rewrite all_digits_lower. destruct a; [discriminate | exact Ha]. }
  rewrite <- (all_digits_lower_id a Hda).
  rewrite E in Hda |- *. now apply all_digits_lower_id.
Qed.

Lemma text_queryset_case (db : list Voter) (a b : string) :
  lower a = lower b ->
  views.text_queryset db a = views.text_queryset db b /\
  public_views.text_queryset db a = public_views.text_queryset db b.
Proof.
  intros E.
  unfold views.text_queryset, public_views.text_queryset, views.text_filter,
    public_views.text_filter, views.text_relevance, public_views.text_relevance,
    iexact, istartswith, icontains.
  now rewrite E.
Qed.

(** X13.  Letter case and surrounding white space of the query do not
    matter: two queries that agree once trimmed and put in lower case get
    the same voters, in the same order, with the same count and [has_more],
    from either search operation. *)
Theorem search_ignores_case (db : list Voter) (q q' : string) (limit : Z) :
  lower (strip q) = lower (strip q') ->
  option_map listed (views.api_search_voters db q limit)
    = option_map listed (views.api_search_voters db q' limit) /\
  option_map listed (public_views.public_api_search_voters db q limit)
    = option_map listed (public_views.public_api_search_voters db q' limit).
Proof.
  intros E.
  assert (Hlen : String.length (strip q) = String.length (strip q')).
  { rewrite <- (lower_length (strip q)), E. apply lower_length. }
  assert (Hdig : isdigit (strip q) = isdigit (strip q')).
  { rewrite <- (isdigit_lower (strip q)), E. apply isdigit_lower. }
  destruct (text_queryset_case db _ _ E) as [Ht Htp].
  unfold views.api_search_voters, public_views.public_api_search_voters.
  rewrite <- Hlen, <- Hdig.
  destruct (isdigit (strip q)) eqn:D.
  - rewrite <- (digits_same_case _ _ E D). split; reflexivity.
  - rewrite <- Ht, <- Htp. split.
    + destruct (String.length (strip q) <? 1)%nat; [reflexivity|].
      destruct (slice _ _); reflexivity.
    + destruct (String.length (strip q) <? 2)%nat; [reflexivity|].
      destruct (slice _ _); reflexivity.
Qed.

Lemma search_ignores_case_witness :
  option_map listed (views.api_search_voters [karim_uddin; karim] "  KaRiM " 15)
  = Some ([karim; karim_uddin], 2%nat, Some false).
Proof.
  pose proof (search_ignores_case [karim_uddin; karim] "  KaRiM " "karim" 15 eq_refl)
    as [H _].
  rewrite H. reflexivity.
Defined.

End SearchMore.

(** ** More on the suggestion operations *)

Section SuggestionsMore.
Import Text models orm notions.

(** The shape of every answer of the two suggestion operations. *)
Lemma api_search_suggestions_answer cats db q fld limit up un va r :
  views.api_search_suggestions cats db q fld limit up un va = Some r ->
  (String.length (strip q) < 2)%nat /\ r = no_suggestions \/
  (2 <= String.length (strip q))%nat /\ 0 <= Z.min limit 15 /\
  views.s_field r = Some (chosen_field fld) /\
  views.s_count r = Some (List.length (views.suggestions r)) /\
  views.suggestions r
    = suggested cats db (strip q) (chosen_field fld) (Z.min limit 15) up un va.
Proof.
  unfold views.api_search_suggestions, slice.
  destruct (String.length (strip q) <? 2)%nat eqn:E.
  - intros [= <-]. left. split; [now apply Nat.ltb_lt | reflexivity].
  - apply Nat.ltb_ge in E.
    destruct (Z.min limit 15 * 2 <? 0) eqn:El; [discriminate|].
    intros [= <-]. right. apply Z.ltb_ge in El. simpl.
    repeat split; auto. lia.
Qed.

Lemma public_api_suggestions_answer cats db q fld limit up un va r :
  public_views.public_api_suggestions cats db q fld limit up un va = Some r ->
  (String.length (strip q) < 2)%nat /\ r = no_suggestions \/
  (2 <= String.length (strip q))%nat /\ 0 <= Z.min limit 10 /\
  views.s_field r = Some (chosen_field fld) /\
  views.s_count r = Some (List.length (views.suggestions r)) /\
  views.suggestions r
    = suggested cats db (strip q) (chosen_field fld) (Z.min limit 10) up un va.
Proof.
  unfold public_views.public_api_suggestions, slice.
  destruct (String.length (strip q) <? 2)%nat eqn:E.
  - intros [= <-]. left. split; [now apply Nat.ltb_lt | reflexivity].
  - apply Nat.ltb_ge in E.
    destruct (Z.min limit 10 * 2 <? 0) eqn:El; [discriminate|].
    intros [= <-]. right. apply Z.ltb_ge in El. simpl.
    repeat split; auto. lia.
Qed.

Lemma suggestions_loop_length limit fld vals seen acc :
  Z.of_nat (List.length acc) < limit ->
  Z.of_nat (List.length (views.suggestions_loop limit fld vals seen acc)) <= limit.
Proof.
  revert seen acc. induction vals as [|value rest IH]; simpl; intros seen acc Hacc; [lia|].
  destruct value as [value|]; [|now apply IH].
  destruct (truthy value && truthy (strip value)); [|now apply IH].
  case_bool_decide; [now apply IH|].
  destruct (Z.of_nat _ >=? limit) eqn:E.
  - rewrite length_app. simpl. lia.
  - apply IH. rewrite Z.geb_leb in E. apply Z.leb_gt in E. exact E.
Qed.



Lemma suggested_length cats db q fld limit up un va :
  0 <= limit ->
  Z.of_nat (List.length (suggested cats db q fld limit up un va)) <= limit.
Proof.
  intros Hlim. unfold suggested. rewrite <- (Permutation_length (order_by_perm _ _)).
  destruct (Z.eq_dec limit 0) as [->|Hne].
  - simpl. lia.
  - apply suggestions_loop_length. simpl. lia.
Qed.

(** X14.  Size of a suggestion list.  An answer of the authenticated
    operation never has more than 15 suggestions, one of the public
    operation never more than 10, and neither has more than the requested
    limit; [count] is the number of suggestions. *)
Theorem suggestions_bounds cats db q fld (limit : Z) up un va (r : views.SuggestResponse) :
  (views.api_search_suggestions cats db q fld limit up un va = Some r ->
   (List.length (views.suggestions r) <= 15)%nat /\
   Z.of_nat (List.length (views.suggestions r)) <= Z.max 0 limit /\
   (views.s_count r = None \/ views.s_count r = Some (List.length (views.suggestions r)))) /\
  (public_views.public_api_suggestions cats db q fld limit up un va = Some r ->
   (List.length (views.suggestions r) <= 10)%nat /\
   Z.of_nat (List.length (views.suggestions r)) <= Z.max 0 limit /\
   (views.s_count r = None \/ views.s_count r = Some (List.length (views.suggestions r)))).
Proof.
  split; intros H.
  - apply api_search_suggestions_answer in H as [[_ ->]|(_ & Hlim & _ & Hc & Hs)].
    + simpl. split; [lia|]. split; [lia|]. now left.
    + pose proof (suggested_length cats db (strip q) (chosen_field fld) _ up un va Hlim) as Hl.
      rewrite <- Hs in Hl. split; [lia|]. split; [lia|]. now right.
  - apply public_api_suggestions_answer in H as [[_ ->]|(_ & Hlim & _ & Hc & Hs)].
    + simpl. split; [lia|]. split; [lia|]. now left.
    + pose proof (suggested_length cats db (strip q) (chosen_field fld) _ up un va Hlim) as Hl.
      rewrite <- Hs in Hl. split; [lia|]. split; [lia|]. now right.
Qed.





Lemma suggestions_bounds_witness :
  exists r,
    views.api_search_suggestions [] [karim; karim_uddin; rahim; karim_small] "ka" "name" 2
      None None None = Some r /\
    (List.length (views.suggestions r) <= 15)%nat /\
    Z.of_nat (List.length (views.suggestions r)) <= 2.
Proof.
  eexists. split; [vm_compute; reflexivity|].
  pose proof (suggestions_bounds [] [karim; karim_uddin; rahim; karim_small] "ka" "name" 2
                None None None) as H.
  edestruct H as [[H15 [Hlim _]] _]; [vm_compute; reflexivity|].
  split; [exact H15 | exact Hlim].
Defined.










End SuggestionsMore.

(** ** More on category scopes *)

Section ScopesMore.
Import Text models orm notions.

Lemma reachable_trans cats a b c :
  reachable cats a b -> reachable cats b c -> reachable cats a c.
Proof.
  induction 1 as [n x Hin Hp | n x m Hin Hp Hr IH]; intros Hbc.
  - now apply (reach_step cats n x c).
  - apply (reach_step cats n x c); auto.
Qed.

(** X19.  What the scoped views list.  For an existing category,
    [category_detail] and the category filter of [voter_list] keep exactly
    the voters whose category is that category or a node reachable from it
    by child links. *)
Theorem scoped_views_list (cats : list Category) (voters : list Voter)
    (pk : Z) (n : Category) (fuel : nat) :
  acyclic cats -> category_by_id cats pk = Some n ->
  (List.length cats <= fuel)%nat ->
  exists vs,
    views.category_detail fuel cats voters pk = Some vs /\
    (forall s, views.selected_category_id s = Some pk ->
               views.voter_list_category_filter fuel cats s voters = Some vs) /\
    (forall up un va, views.or_else va (views.or_else un up) = Some pk ->
       public_views.advanced_voter_search_category_filter fuel cats up un va voters
         = Some vs) /\
    (forall v, In v vs <->
               In v voters /\
               (category_id v = pk \/ reachable cats pk (category_id v))).
Proof.
  intros Hacyc Hget Hfuel.
  destruct (scoped_views_voters cats voters pk n fuel Hacyc Hget Hfuel)
    as (vs & Hd & Hl & Hspec).
  exists vs. split; [exact Hd|]. split; [exact Hl|]. split; [|exact Hspec].
  intros up un va Hsel.
  specialize (Hl {| views.district := None; views.upazila := up; views.union_ := un;
                    views.voter_area := va; views.category := None |}).
  unfold views.selected_category_id in Hl. simpl in Hl.
  assert (Hsel' : views.or_else va (views.or_else un (views.or_else up None)) = Some pk).
  { destruct va, un, up; simpl in *; congruence. }
  specialize (Hl Hsel').
  unfold public_views.advanced_voter_search_category_filter. rewrite Hsel.
  unfold views.voter_list_category_filter, views.selected_category_id in Hl.
  simpl in Hl. rewrite Hsel' in Hl. exact Hl.
Qed.

Lemma scoped_views_list_witness :
  exists vs,
    views.category_detail 3 tree_ABC [karim; mk_voter 9 (Some "Out") None None None None] 2
      = Some vs /\
    (forall v, In v vs <->
               In v [karim; mk_voter 9 (Some "Out") None None None None] /\
               (category_id v = 2 \/ reachable tree_ABC 2 (category_id v))).
Proof.
  destruct (scoped_views_list tree_ABC [karim; mk_voter 9 (Some "Out") None None None None]
              2 cat_B 3) as (vs & Hd & _ & _ & Hspec).
  - apply (acyclic_of_rank tree_ABC Z.to_nat).
    intros c p [<-|[<-|[<-|[]]]] [=<-]; simpl; lia.
  - reflexivity.
  - simpl. lia.
  - exists vs. split; [exact Hd | exact Hspec].
Defined.

(** X20.  Scopes nest.  When a category [m] lies in the scope of a category
    [n], the scope of [m] is contained in the scope of [n]: filtering by the
    narrower category never shows a voter that the wider one hides. *)
Theorem scopes_nest (cats : list Category) (n m : Category) (fuel : nat) (scope_n : list Z) :
  acyclic cats -> In n cats -> In m cats -> (List.length cats <= fuel)%nat ->
  views.descendant_ids fuel cats n = Some scope_n ->
  In (cat_id m) scope_n ->
  exists scope_m,
    views.descendant_ids fuel cats m = Some scope_m /\
    incl scope_m scope_n /\
    (forall voters v, In v (List.filter (category_id__in scope_m) voters) ->
                      In v (List.filter (category_id__in scope_n) voters)).
Proof.
  intros Hacyc Hn Hm Hfuel Hsn Hin.
  unfold views.descendant_ids in *.
  destruct (views.get_category_descendants fuel cats n) as [dn|] eqn:En; [|discriminate].
  injection Hsn as <-.
  destruct (get_category_descendants_total cats fuel m Hacyc Hm Hfuel) as [dm Em].
  rewrite Em. exists (dm ++ [cat_id m]). split; [reflexivity|].
  pose proof (get_category_descendants_spec cats fuel n dn En) as Sn.
  pose proof (get_category_descendants_spec cats fuel m dm Em) as Sm.
  assert (Hincl : incl (dm ++ [cat_id m]) (dn ++ [cat_id n])).
  { intros x Hx. apply in_app_or in Hx as [Hx|[<-|[]]]; [|exact Hin].
    apply Sm in Hx. apply in_app_or in Hin as [Hin|[Hin|[]]].
    - apply in_or_app. left. apply Sn. apply Sn in Hin.
      eapply reachable_trans; eauto.
    - apply in_or_app. left. apply Sn. now rewrite Hin. }
  split; [exact Hincl|].
  intros voters v Hv. apply filter_In in Hv as [Hv Hc]. apply filter_In. split; auto.
  apply category_id__in_In. apply category_id__in_In in Hc. now apply Hincl.
Qed.

Lemma scopes_nest_witness :
  exists scope_m,
    views.descendant_ids 3 tree_ABC cat_B = Some scope_m /\
    incl scope_m [2; 3; 1].
Proof.
  destruct (scopes_nest tree_ABC cat_A cat_B 3 [2; 3; 1]) as (sm & H1 & H2 & _).
  - apply (acyclic_of_rank tree_ABC Z.to_nat).
    intros c p [<-|[<-|[<-|[]]]] [=<-]; simpl; lia.
  - simpl. auto.
  - simpl. auto.
  - simpl. lia.
  - reflexivity.
  - simpl. auto.
  - exists sm. auto.
Defined.

End ScopesMore.

(** ** More on the derived column [search_text] *)

Section SearchTextMore.
Import Text models orm notions.

Lemma string_app_assoc (a b c : string) : (a +:+ b) +:+ c = a +:+ (b +:+ c).
Proof.
  induction a as [|x a IH]; [reflexivity|].
  change (String x ((a +:+ b) +:+ c) = String x (a +:+ (b +:+ c))). now rewrite IH.
Qed.

Lemma string_app_nil_r (a : string) : a +:+ "" = a.
Proof.
  induction a as [|x a IH]; [reflexivity|].
  change (String x (a +:+ "") = String x a). now rewrite IH.
Qed.

Lemma lower_app (a b : string) : lower (a +:+ b) = lower a +:+ lower b.
Proof.
  induction a as [|x a IH]; [reflexivity|].
  change (String (lower_char x) (lower (a +:+ b))
          = String (lower_char x) (lower a +:+ lower b)). now rewrite IH.
Qed.

(** A part of a joined string occurs in it. *)
Lemma join_occurs (sep s : string) (parts : list string) :
  In s parts -> exists pre post, join sep parts = pre +:+ s +:+ post.
Proof.
  induction parts as [|p rest IH]; [contradiction|].
  intros [->|Hin].
  - destruct rest as [|p' rest].
    + exists "", "". change (s = s +:+ ""). now rewrite string_app_nil_r.
    + exists "", (sep +:+ join sep (p' :: rest)). reflexivity.
  - destruct (IH Hin) as (pre & post & E).
    destruct rest as [|p' rest]; [contradiction|].
    exists (p +:+ sep +:+ pre), post.
    change (join sep (p :: p' :: rest)) with (p +:+ sep +:+ join sep (p' :: rest)).
    rewrite E. now rewrite !string_app_assoc.
Qed.

(** A non-empty column of the row occurs, in lower case, in the text built
    from the row. *)
Lemma build_search_text_occurs (v : Voter) (s : string) :
  In (Some s) [serial v; name v; father v; mother v; address v; voter_no v; profession v] ->
  s <> "" ->
  exists pre post, build_search_text v = pre +:+ lower s +:+ post.
Proof.
  intros Hin Hne. unfold build_search_text.
  assert (Hpart : In s (List.filter truthy
            [or_empty (serial v); or_empty (name v); or_empty (father v);
             or_empty (mother v); or_empty (address v); or_empty (voter_no v);
             or_empty (profession v)])).
  { apply filter_In. split; [|destruct s; [congruence | reflexivity]].
    simpl in Hin. simpl.
    repeat (destruct Hin as [Hin|Hin]; [rewrite Hin; simpl; auto 10|]). contradiction. }
  destruct (join_occurs " " s _ Hpart) as (pre & post & E).
  exists (lower pre), (lower post). now rewrite E, !lower_app.
Qed.

Lemma build_search_text_lower (v : Voter) :
  lower (build_search_text v) = build_search_text v.
Proof. unfold build_search_text. apply lower_idem. Qed.

Lemma append_empty (a b : string) : a +:+ b = "" -> a = "" /\ b = "".
Proof. destruct a; simpl; [auto | discriminate]. Qed.

Lemma lower_empty (s : string) : lower s = "" -> s = "".
Proof. destruct s; simpl; [auto | discriminate]. Qed.

Lemma current_row_ranked (db : list Voter) (v : Voter) (q : string) (col : option string) :
  search_text_current v -> In v db ->
  In col [serial v; name v; father v; mother v; address v; voter_no v; profession v] ->
  ci_contains col q ->
  text_candidate q v /\
  exists score, In (v, score) (views.text_queryset db q) /\ 40 <= score.
Proof.
  intros Hcur Hin Hcol (s & pre & post & -> & E).
  assert (Hst : ci_contains (search_text v) q).
  { rewrite Hcur. exists (build_search_text v). rewrite build_search_text_lower.
    destruct (string_dec s "") as [->|Hne].
    - simpl in E. symmetry in E. apply append_empty in E as [-> E].
      apply append_empty in E as [E _]. rewrite E.
      exists "", (build_search_text v). split; reflexivity.
    - destruct (build_search_text_occurs v s Hcol Hne) as (pre' & post' & E').
      exists (pre' +:+ pre), (post +:+ post'). split; [reflexivity|].
      rewrite E', E. now rewrite !string_app_assoc. }
  assert (Hcand : text_candidate q v) by (unfold text_candidate; tauto).
  split; [exact Hcand|].
  exists (views.text_relevance q v). split.
  - apply annotated_In. repeat split; auto. now apply text_filter_candidate.
  - unfold views.text_relevance.
    repeat match goal with
           | |- context [if ?b then _ else _] => destruct b; try lia
           end.
Qed.

(** X21.  What [search_text] is for.  A row whose [search_text] is current
    is found by the authenticated text search through any of the seven
    columns that [search_text] is built from, also through [serial] and
    [profession], which the search does not look at otherwise: when the
    query occurs in such a column, letter case aside, the row is ranked. *)
Theorem current_search_text_found (db : list Voter) (v : Voter) (q : string)
    (col : option string) :
  search_text_current v -> In v db ->
  In col [serial v; name v; father v; mother v; address v; voter_no v; profession v] ->
  ci_contains col q ->
  text_candidate q v /\
  exists score, In (v, score) (views.text_queryset db q) /\ 40 <= score.
Proof. apply current_row_ranked. Qed.

Lemma current_search_text_found_witness :
  text_candidate "FARM" farmer /\
  exists score, In (farmer, score) (views.text_queryset [farmer] "FARM") /\ 40 <= score.
Proof.
  apply (current_search_text_found [farmer] farmer "FARM" (Some "Farmer")).
  - reflexivity.
  - simpl. auto.
  - simpl. auto 10.
  - apply icontains_spec. reflexivity.
Defined.

Lemma bulk_create_keeps (table objs : list Voter) (v : Voter) :
  In v table -> In v (bulk_create table objs).
Proof.
  revert table. induction objs as [|o rest IH]; simpl; intros table H; [exact H|].
  apply IH, in_or_app. now left.
Qed.

Lemma bulk_create_inserts (table objs : list Voter) (o : Voter) :
  In o objs -> exists pk, In (with_id o pk) (bulk_create table objs).
Proof.
  revert table. induction objs as [|o' rest IH]; simpl; intros table H; [contradiction|].
  destruct H as [->|H]; [|now apply IH].
  exists (next_id table). apply bulk_create_keeps, in_or_app. right. now left.
Qed.

(** X22.  Import, repair, search.  After a spreadsheet has been imported
    and [update_search_text] has been run, every imported line is a row
    that the authenticated text search finds through its profession or its
    serial: when the query occurs in that column of the line, letter case
    aside, a row with the fields of the line is ranked. *)
Theorem imported_row_found_after_repair (table : list Voter) (category : Category)
    (file : string) (rows : list commands.Row) (row : commands.Row) (q : string) :
  In row rows ->
  ci_contains (commands.row_profession row) q \/ ci_contains (commands.row_serial row) q ->
  let db := commands.update_search_text
              (commands._process_excel_file table category file rows) in
  exists v score,
    In (v, score) (views.text_queryset db q) /\ 40 <= score /\
    name v = commands.row_name row /\ voter_no v = commands.row_voter_no row /\
    profession v = commands.row_profession row /\ serial v = commands.row_serial row /\
    category_id v = cat_id category.
Proof.
  intros Hrow Hq db.
  destruct (bulk_create_inserts table
              (map (commands.new_voter category (commands._parse_filename file) file) rows)
              (commands.new_voter category (commands._parse_filename file) file row))
    as [pk Hpk]; [now apply in_map|].
  set (stored := with_id (commands.new_voter category (commands._parse_filename file) file row)
                   pk) in *.
  set (v := set_search_text stored (Some (build_search_text stored))).
  assert (Hv : In v db).
  { unfold db, commands.update_search_text. apply in_map_iff. exists stored. split; auto. }
  assert (Hcur : search_text_current v) by reflexivity.
  destruct Hq as [Hq|Hq].
  - destruct (current_row_ranked db v q (profession v) Hcur Hv) as (_ & score & Hs & Hle);
      [simpl; auto 10 | exact Hq |].
    exists v, score. repeat split; auto.
  - destruct (current_row_ranked db v q (serial v) Hcur Hv) as (_ & score & Hs & Hle);
      [simpl; auto 10 | exact Hq |].
    exists v, score. repeat split; auto.
Qed.

Lemma imported_row_found_after_repair_witness :
  exists v score,
    In (v, score)
       (views.text_queryset
          (commands.update_search_text
             (commands._process_excel_file [] cat_C "male_voters.xlsx" [row_karim]))
          "farm") /\
    40 <= score /\ name v = Some "Karim".
Proof.
  destruct (imported_row_found_after_repair [] cat_C "male_voters.xlsx" [row_karim]
              row_karim "farm") as (v & score & H1 & H2 & H3 & _).
  - simpl. auto.
  - left. apply icontains_spec. reflexivity.
  - exists v, score. auto.
Defined.

End SearchTextMore.

(** ** Highlighting: [highlight_match] *)

Section Highlight.
Import Text models orm notions.

Lemma string_app_cons (c : ascii) (a b : string) : String c a +:+ b = String c (a +:+ b).
Proof. reflexivity. Qed.

Lemma take_drop (n : nat) (s : string) : views.take n s +:+ drop n s = s.
Proof.
  revert s. induction n as [|n IH]; intros [|c s]; try reflexivity.
  change (String c (views.take n s +:+ drop n s) = String c s). now rewrite IH.
Qed.

Lemma drop_length (n : nat) (s : string) :
  String.length (drop n s) = (String.length s - n)%nat.
Proof.
  revert s. induction n as [|n IH]; intros [|c s]; simpl; auto; lia.
Qed.

Lemma sub_skip (repl : string -> string) (q : string) (k : nat) (s : string) :
  views.sub_ignorecase repl q k s = views.sub_ignorecase repl q 0 (drop k s).
Proof.
  revert k. induction s as [|c s IH]; intros [|k]; try reflexivity.
  simpl. apply IH.
Qed.

Lemma unmark_skip (k : nat) (s : string) : unmark k s = unmark 0 (drop k s).
Proof.
  revert k. induction s as [|c s IH]; intros [|k]; try reflexivity.
  simpl. apply IH.
Qed.

(** The two cases of a replacement step. *)
Lemma sub_step (repl : string -> string) (q : string) (c : ascii) (s : string) :
  (1 <= String.length q)%nat ->
  views.sub_ignorecase repl q 0 (String c s) =
  if startswith (lower (String c s)) (lower q) then
    repl (views.take (String.length q) (String c s))
      +:+ views.sub_ignorecase repl q 0 (drop (String.length q) (String c s))
  else String c (views.sub_ignorecase repl q 0 s).
Proof.
  intros Hq. cbn [views.sub_ignorecase].
  destruct (startswith (lower (String c s)) (lower q)); [|reflexivity].
  rewrite sub_skip. destruct (String.length q) as [|n]; [lia|].
  simpl. now rewrite Nat.sub_0_r.
Qed.

Lemma no_markup_app (a b : string) : no_markup (a +:+ b) = no_markup a && no_markup b.
Proof.
  induction a as [|c a IH]; [reflexivity|].
  rewrite string_app_cons. cbn [no_markup]. rewrite IH. now rewrite !andb_assoc.
Qed.

Lemma escape_char_no_markup (c : ascii) : no_markup (views.escape_char c) = true.
Proof. destruct c as [[] [] [] [] [] [] [] []]; reflexivity. Qed.

Lemma escape_no_markup (s : string) : no_markup (views.escape s) = true.
Proof.
  induction s as [|c s IH]; [reflexivity|].
  cbn [views.escape]. now rewrite no_markup_app, escape_char_no_markup, IH.
Qed.

Lemma no_markup_drop (n : nat) (s : string) : no_markup s = true -> no_markup (drop n s) = true.
Proof.
  revert s. induction n as [|n IH]; intros [|c s]; simpl; auto.
  intros H. apply andb_prop in H as [_ H]. auto.
Qed.

Lemma no_markup_take (n : nat) (s : string) :
  no_markup s = true -> no_markup (views.take n s) = true.
Proof.
  revert s. induction n as [|n IH]; intros [|c s]; simpl; auto.
  intros H. apply andb_prop in H as [Hc H]. rewrite Hc. simpl. auto.
Qed.

Lemma no_markup_head (c : ascii) (s : string) :
  no_markup (String c s) = true -> Ascii.eqb c "<" = false /\ no_markup s = true.
Proof.
  cbn [no_markup]. intros H.
  apply andb_prop in H as [H Hs]. apply andb_prop in H as [H _].
  apply andb_prop in H as [H _]. apply andb_prop in H as [H _].
  apply negb_true_iff in H. auto.
Qed.

Lemma unmark_plain (m t : string) :
  no_markup m = true -> unmark 0 (m +:+ t) = m +:+ unmark 0 t.
Proof.
  induction m as [|c m IH]; [reflexivity|].
  intros H. apply no_markup_head in H as [Hlt Hm].
  rewrite !string_app_cons. cbn [unmark startswith].
  rewrite Hlt. simpl. now rewrite IH.
Qed.

Lemma unmark_mark (m t : string) :
  no_markup m = true -> unmark 0 ("<mark>" +:+ m +:+ "</mark>" +:+ t) = m +:+ unmark 0 t.
Proof.
  intros Hm.
  change (unmark 0 ("<mark>" +:+ m +:+ "</mark>" +:+ t))
    with (unmark 0 (m +:+ "</mark>" +:+ t)).
  rewrite unmark_plain by exact Hm. reflexivity.
Qed.

Lemma mark_app (m t : string) :
  mark m +:+ t = "<mark>" +:+ views.escape m +:+ "</mark>" +:+ t.
Proof. unfold mark. now rewrite !string_app_assoc. Qed.

(** Induction on the length of a string. *)
Lemma string_length_ind (P : string -> Prop) :
  (forall s, (forall t, (String.length t < String.length s)%nat -> P t) -> P s) ->
  forall s, P s.
Proof.
  intros H s. remember (String.length s) as n eqn:E. revert s E.
  induction n as [n IH] using lt_wf_ind. intros s ->. apply H.
  intros t Ht. now apply (IH (String.length t)).
Qed.

Lemma unmark_sub_no_markup (q s : string) :
  (1 <= String.length q)%nat -> no_markup s = true ->
  no_markup (unmark 0 (views.sub_ignorecase mark q 0 s)) = true.
Proof.
  intros Hq. induction s as [s IH] using string_length_ind. intros Hs.
  destruct s as [|c s]; [reflexivity|].
  rewrite sub_step by exact Hq.
  destruct (startswith (lower (String c s)) (lower q)).
  - rewrite mark_app, unmark_mark by apply escape_no_markup.
    rewrite no_markup_app, escape_no_markup. simpl andb.
    apply IH; [|now apply no_markup_drop].
    rewrite drop_length. simpl. lia.
  - assert (Hone : no_markup (String c "") = true /\ no_markup s = true).
    { cbn [no_markup] in *. apply andb_prop in Hs as [Hc Hs']. rewrite Hc. auto. }
    destruct Hone as [Hc Hs'].
    change (String c (views.sub_ignorecase mark q 0 s))
      with (String c "" +:+ views.sub_ignorecase mark q 0 s).
    rewrite unmark_plain by exact Hc. rewrite no_markup_app, Hc. simpl andb.
    apply IH; [simpl; lia | exact Hs'].
Qed.

(** X23.  The highlighted text is safe to embed.  Whatever the text and the
    query, once the [<mark>] and [</mark>] tags that [highlight_match]
    itself wrote are taken out, no [<], [>], double or single quote is left:
    the only markup of the result are those tags.  Both copies. *)
Theorem highlight_match_safe (text query : string) :
  no_markup (unmark 0 (views.highlight_match text query)) = true /\
  no_markup (unmark 0 (public_views.highlight_match text query)) = true.
Proof.
  assert (H : no_markup (unmark 0 (views.highlight_match text query)) = true).
  { unfold views.highlight_match.
    destruct (negb (truthy text) || negb (truthy query)) eqn:E.
    - rewrite <- (string_app_nil_r (views.escape text)).
      rewrite unmark_plain by apply escape_no_markup.
      now rewrite no_markup_app, escape_no_markup.
    - apply orb_false_elim in E as [_ E]. apply negb_false_iff in E.
      apply unmark_sub_no_markup; [|apply escape_no_markup].
      destruct query; [discriminate | simpl; lia]. }
  split; exact H.
Qed.

Lemma lower_char_ampersand (c : ascii) :
  Ascii.eqb (lower_char c) "&" = Ascii.eqb c "&".
Proof. destruct c as [[] [] [] [] [] [] [] []]; reflexivity. Qed.

Lemma matched_no_ampersand (q s : string) :
  startswith (lower s) (lower q) = true -> no_ampersand q = true ->
  no_ampersand (views.take (String.length q) s) = true.
Proof.
  revert s. induction q as [|b q IH]; intros s Hm Hq; [reflexivity|].
  destruct s as [|a s]; [discriminate|].
  cbn [lower startswith] in Hm. apply andb_prop in Hm as [Hab Hm].
  cbn [no_ampersand] in Hq. apply andb_prop in Hq as [Hb Hq].
  cbn [String.length views.take no_ampersand].
  rewrite (IH s Hm Hq), andb_true_r.
  apply Ascii.eqb_eq in Hab.
  rewrite <- lower_char_ampersand, Hab, lower_char_ampersand. exact Hb.
Qed.

Lemma escape_plain (m : string) :
  no_markup m = true -> no_ampersand m = true -> views.escape m = m.
Proof.
  induction m as [|c m IH]; [reflexivity|].
  cbn [no_markup no_ampersand views.escape]. intros H1 H2.
  apply andb_prop in H1 as [H1 Hm1]. apply andb_prop in H2 as [Hc Hm2].
  rewrite (IH Hm1 Hm2). unfold views.escape_char.
  apply andb_prop in H1 as [H1 Hq2]. apply andb_prop in H1 as [H1 Hq1].
  apply andb_prop in H1 as [Hlt Hgt].
  apply negb_true_iff in Hc, Hlt, Hgt, Hq1, Hq2.
  now rewrite Hc, Hlt, Hgt, Hq1, Hq2.
Qed.

Lemma unmark_sub_plain (q s : string) :
  (1 <= String.length q)%nat -> no_ampersand q = true -> no_markup s = true ->
  unmark 0 (views.sub_ignorecase mark q 0 s) = s.
Proof.
  intros Hq Hamp. induction s as [s IH] using string_length_ind. intros Hs.
  destruct s as [|c s]; [reflexivity|].
  rewrite sub_step by exact Hq.
  destruct (startswith (lower (String c s)) (lower q)) eqn:Hm.
  - rewrite mark_app, unmark_mark by apply escape_no_markup.
    rewrite escape_plain;
      [| now apply no_markup_take | now apply matched_no_ampersand].
    rewrite IH; [apply take_drop | | now apply no_markup_drop].
    rewrite drop_length. simpl. lia.
  - assert (Hone : no_markup (String c "") = true /\ no_markup s = true).
    { cbn [no_markup] in *. apply andb_prop in Hs as [Hc Hs']. rewrite Hc. auto. }
    destruct Hone as [Hc Hs'].
    change (String c (views.sub_ignorecase mark q 0 s))
      with (String c "" +:+ views.sub_ignorecase mark q 0 s).
    rewrite unmark_plain by exact Hc.
    rewrite IH; [reflexivity | simpl; lia | exact Hs'].
Qed.

(** X24.  Highlighting only adds tags.  When the query has no ampersand,
    taking the [<mark>] and [</mark>] tags out of the highlighted text gives
    back the escaped text, character for character: nothing of the text is
    lost, repeated or altered. *)
Theorem highlight_match_round_trip (text query : string) :
  no_ampersand query = true ->
  unmark 0 (views.highlight_match text query) = views.escape text /\
  unmark 0 (public_views.highlight_match text query) = views.escape text.
Proof.
  intros Hamp.
  assert (H : unmark 0 (views.highlight_match text query) = views.escape text).
  { unfold views.highlight_match.
    destruct (negb (truthy text) || negb (truthy query)) eqn:E.
    - rewrite <- (string_app_nil_r (views.escape text)) at 1.
      rewrite unmark_plain by apply escape_no_markup.
      apply string_app_nil_r.
    - apply orb_false_elim in E as [_ E]. apply negb_false_iff in E.
      apply unmark_sub_plain; [|exact Hamp|apply escape_no_markup].
      destruct query; [discriminate | simpl; lia]. }
  split; exact H.
Qed.

Lemma highlight_match_round_trip_witness :
  unmark 0 (views.highlight_match "Karim <b> & karim" "KARIM") = "Karim &lt;b&gt; &amp; karim".
Proof.
  apply (highlight_match_round_trip "Karim <b> & karim" "KARIM"). reflexivity.
Defined.





End Highlight.

(** ** The page list of the pagination bar *)

Section Pagination.

Import pagination_tags notions.



Lemma range_length (a b : Z) : Z.of_nat (List.length (range a b)) = Z.max 0 (b - a).
Proof.
  unfold range. rewrite List.length_map, List.length_seq. lia.
Qed.







(** X27. The page list never has more than max(7, 2 * adjacent_pages + 5)
    entries, however many pages there are. *)
Theorem page_numbers_length (current_page total_pages adjacent_pages : Z) :
  Z.of_nat (List.length (page_numbers current_page total_pages adjacent_pages))
    <= Z.max 7 (2 * adjacent_pages + 5).
Proof.
  unfold page_numbers.
  destruct (total_pages <=? 7) eqn:E7.
  - apply Z.leb_le in E7. rewrite List.length_map.
    pose proof (range_length 1 (total_pages + 1)). lia.
  - rewrite !List.length_app, !List.length_map.
    pose proof (range_length (Z.max 2 (current_page - adjacent_pages))
                  (Z.min (total_pages - 1) (current_page + adjacent_pages) + 1)) as Hr.
    destruct (_ >? 2); destruct (_ <? _); destruct (_ >? 1); simpl List.length; lia.
Qed.

End Pagination.

(** ** The import command *)

Section ImportCommand.

Import Text models orm commands notions.

Lemma Path_induction (P : Path -> Prop) :
  (forall name glob_xlsx, P (directory name None glob_xlsx)) ->
  (forall name entries glob_xlsx,
      List.Forall P entries -> P (directory name (Some entries) glob_xlsx)) ->
  (forall name read_excel, P (excel_file name read_excel)) ->
  (forall name, P (other_entry name)) ->
  forall path, P path.
Proof.
  intros Hnone Hsome Hfile Hother.
  fix IH 1. intros [name [entries|] glob_xlsx | name read_excel | name].
  - apply Hsome. induction entries as [|e l IHl]; constructor; [apply IH | exact IHl].
  - apply Hnone.
  - apply Hfile.
  - apply Hother.
Qed.

(** The subdirectories a scan loops over are the directories among the
    entries, each with its own scan. *)
Lemma subdirs_In (dry_run : bool) (entries : list Path) a :
  In a (order_by (fun a b => str_le (path_name (fst a)) (path_name (fst b)))
          (flat_map (fun e => match e with
                              | directory _ _ _ => [(e, _scan_directory dry_run e)]
                              | _ => []
                              end) entries)) ->
  exists e, In e entries /\ is_directory e = true /\ a = (e, _scan_directory dry_run e).
Proof.
  intros H. apply order_by_In in H. apply in_flat_map in H as [e [He Ha]].
  exists e. destruct e; simpl in Ha; try contradiction.
  destruct Ha as [<-|[]]. auto.
Qed.

Lemma for_each_invariant {A S : Type} (Inv : S -> Prop) (R : S -> S -> Prop)
    (body : A -> S -> option S) (l : list A) :
  (forall s, R s s) ->
  (forall a b c, R a b -> R b c -> R a c) ->
  (forall a, In a l -> forall s, Inv s -> exists s', body a s = Some s' /\ Inv s' /\ R s s') ->
  forall s, Inv s -> exists s', for_each body l s = Some s' /\ Inv s' /\ R s s'.
Proof.
  intros Hrefl Htrans. induction l as [|a l IH]; intros Hbody s Hs.
  - exists s. simpl. auto.
  - destruct (Hbody a (or_introl eq_refl) s Hs) as [s1 [E1 [I1 R1]]].
    destruct (IH (fun a' Ha' => Hbody a' (or_intror Ha')) s1 I1) as [s2 [E2 [I2 R2]]].
    exists s2. simpl. rewrite E1. eauto.
Qed.

(** *** A dry run *)

Lemma count_more_0 self : count_more self 0 = self.
Proof. destruct self. unfold count_more. simpl. f_equal. lia. Qed.

Lemma count_more_more self n m : count_more (count_more self n) m = count_more self (n + m).
Proof. unfold count_more. simpl. f_equal. lia. Qed.

Lemma list_sum_perm (l l' : list nat) : Permutation l l' -> list_sum l = list_sum l'.
Proof. induction 1; simpl; lia. Qed.

Lemma count_folders_entries (dry_run : bool) (entries : list Path) :
  list_sum (map (fun a : Path * (option Category -> nat -> Command -> option Command) =>
                   S (count_folders (fst a)))
              (flat_map (fun e => match e with
                                  | directory _ _ _ => [(e, _scan_directory dry_run e)]
                                  | _ => []
                                  end) entries))
  = list_sum (map (fun e => match e with
                            | directory _ _ _ => S (count_folders e)
                            | _ => 0%nat
                            end) entries).
Proof.
  induction entries as [|e l IH]; [reflexivity|].
  destruct e; simpl in *; lia.
Qed.

Lemma dry_scan (path : Path) :
  is_directory path = true ->
  forall level_ self,
    _scan_directory true path None level_ self = Some (count_more self (count_folders path)).
Proof.
  induction path as [name glob_xlsx | name entries glob_xlsx IH | |] using Path_induction;
    try discriminate; intros _ level_ self.
  - simpl. now rewrite count_more_0.
  - cbn [_scan_directory count_folders].
    set (subdirs := order_by _ (flat_map _ entries)).
    assert (Hcount : list_sum (map (fun a => S (count_folders (fst a))) subdirs)
                     = list_sum (map (fun e => match e with
                                               | directory _ _ _ => S (count_folders e)
                                               | _ => 0%nat
                                               end) entries)).
    { rewrite <- (count_folders_entries true). symmetry.
      apply list_sum_perm, Permutation_map, order_by_perm. }
    assert (Hsub : forall a, In a subdirs ->
              exists e, In e entries /\ is_directory e = true /\ a = (e, _scan_directory true e))
      by (intros a; apply subdirs_In).
    clearbody subdirs.
    assert (Hloop : forall self,
      for_each
        (fun (subdir : Path * (option Category -> nat -> Command -> option Command)) self =>
           match _get_or_create_category true (path_name (fst subdir)) None
                   (path_name (fst subdir)) level_ self with
           | None => None
           | Some (category, self0) =>
               match category with
               | Some c =>
                   if (match fst subdir with directory _ _ g => g | _ => false end) && negb true
                   then snd subdir (Some (set_has_excel c true)) (S level_)
                          {| categories := save_has_excel (categories self0) (set_has_excel c true);
                             voters := voters self0;
                             categories_created := categories_created self0;
                             voters_created := voters_created self0;
                             excel_files_processed := excel_files_processed self0 |}
                   else snd subdir (Some c) (S level_) self0
               | None => snd subdir None (S level_) self0
               end
           end) subdirs self
      = Some (count_more self (list_sum (map (fun a => S (count_folders (fst a))) subdirs)))).
    { clear Hcount. rewrite List.Forall_forall in IH.
      induction subdirs as [|a l IHl]; intros self0.
      - simpl. now rewrite count_more_0.
      - destruct (Hsub a (or_introl eq_refl)) as [e [He [Hd ->]]].
        cbn [for_each _get_or_create_category fst snd].
        rewrite (IH e He Hd).
        rewrite IHl by (intros a' Ha'; apply Hsub; now right).
        f_equal. unfold count_more. simpl. f_equal. lia. }
    rewrite Hloop, Hcount.
    destruct (order_by _ _); reflexivity.
Qed.

(** *** Importing *)

Lemma same_row_refl c : same_row c c.
Proof. reflexivity. Qed.

Lemma same_row_trans a b c : same_row a b -> same_row b c -> same_row a c.
Proof. unfold same_row. congruence. Qed.

Lemma same_row_columns c c' :
  same_row c c' ->
  cat_id c = cat_id c' /\ cat_name c = cat_name c' /\ parent c = parent c' /\
  full_path c = full_path c'.
Proof.
  unfold same_row, set_has_excel. intros H. injection H. auto.
Qed.

Lemma same_row_set_has_excel c b : same_row c (set_has_excel c b).
Proof. reflexivity. Qed.

Lemma kept_refl cats : kept cats cats.
Proof. intros c Hc. exists c. split; [exact Hc | apply same_row_refl]. Qed.

Lemma kept_trans a b c : kept a b -> kept b c -> kept a c.
Proof.
  intros Hab Hbc x Hx. destruct (Hab x Hx) as [y [Hy Hxy]].
  destruct (Hbc y Hy) as [z [Hz Hyz]]. exists z. split; [exact Hz|].
  eapply same_row_trans; eauto.
Qed.

Lemma parent_ok_kept cats cats' parent_ :
  kept cats cats' -> parent_ok cats parent_ -> parent_ok cats' parent_.
Proof.
  intros Hk. destruct parent_ as [p|]; [|auto].
  intros [r [Hr Hrp]]. destruct (Hk r Hr) as [r' [Hr' Hrr']].
  exists r'. split; [exact Hr'|].
  unfold same_row in *. congruence.
Qed.

Lemma next_category_id_above cats c : In c cats -> cat_id c < next_category_id cats.
Proof.
  induction cats as [|r l IH]; [contradiction|].
  intros [->|Hc]; simpl; [lia|]. specialize (IH Hc). lia.
Qed.

Lemma next_category_id_fresh cats : ~ In (next_category_id cats) (map cat_id cats).
Proof.
  intros H. apply in_map_iff in H as [c [Hid Hc]].
  apply next_category_id_above in Hc. lia.
Qed.

Lemma filter_full_path_nil cats fp :
  List.filter (fun c => String.eqb (full_path c) fp) cats = [] ->
  ~ In fp (map full_path cats).
Proof.
  intros Hf H. apply in_map_iff in H as [c [Hfp Hc]].
  assert (Hin : In c (List.filter (fun c => String.eqb (full_path c) fp) cats)).
  { apply List.filter_In. split; [exact Hc|]. now apply String.eqb_eq. }
  rewrite Hf in Hin. contradiction.
Qed.

Lemma filter_full_path_unique cats fp a b rest :
  List.NoDup (map full_path cats) ->
  List.filter (fun c => String.eqb (full_path c) fp) cats <> a :: b :: rest.
Proof.
  induction cats as [|c l IH]; intros Hnd; [discriminate|].
  simpl in Hnd. apply List.NoDup_cons_iff in Hnd as [Hc Hnd].
  simpl. destruct (String.eqb (full_path c) fp) eqn:E.
  - apply String.eqb_eq in E. intros H. injection H as _ Hrest.
    assert (Hb : In b (List.filter (fun c => String.eqb (full_path c) fp) l))
      by (rewrite Hrest; now left).
    apply List.filter_In in Hb as [Hb Hbfp]. apply String.eqb_eq in Hbfp.
    apply Hc. rewrite E, <- Hbfp. now apply in_map.
  - now apply IH.
Qed.

(** Rewriting a column that the tree does not depend on keeps the table well
    formed. *)
Lemma well_formed_map (g : Category -> Category) cats :
  (forall r, same_row r (g r)) ->
  well_formed cats -> well_formed (map g cats) /\ kept cats (map g cats).
Proof.
  intros Hg [Hids [Hpaths Hlinks]].
  assert (Eid : map cat_id (map g cats) = map cat_id cats).
  { rewrite map_map. apply map_ext. intros r.
    destruct (same_row_columns _ _ (Hg r)) as [H _]. now rewrite H. }
  assert (Epath : map full_path (map g cats) = map full_path cats).
  { rewrite map_map. apply map_ext. intros r.
    destruct (same_row_columns _ _ (Hg r)) as (_ & _ & _ & H). now rewrite H. }
  split; [split; [|split]|].
  - now rewrite Eid.
  - now rewrite Epath.
  - intros c Hc. apply in_map_iff in Hc as [c0 [<- Hc0]].
    destruct (same_row_columns _ _ (Hg c0)) as (_ & Hn & Hp & Hf).
    rewrite <- Hp, <- Hf, <- Hn. specialize (Hlinks c0 Hc0).
    destruct (parent c0) as [p|]; [|exact Hlinks].
    destruct Hlinks as [r [Hr [Hrid Hrf]]].
    destruct (same_row_columns _ _ (Hg r)) as (Hi' & _ & _ & Hf').
    exists (g r). split; [now apply in_map|]. split; [congruence|].
    now rewrite <- Hf'.
  - intros c Hc. exists (g c). split; [now apply in_map | apply Hg].
Qed.

Lemma save_has_excel_well_formed cats c :
  well_formed cats ->
  well_formed (save_has_excel cats c) /\ kept cats (save_has_excel cats c).
Proof.
  apply well_formed_map. intros r.
  destruct (cat_id r =? cat_id c); [apply same_row_set_has_excel | apply same_row_refl].
Qed.

Lemma get_or_create_well_formed cats name_ code_ parent_ level_ :
  well_formed cats -> parent_ok cats parent_ ->
  exists category created cats',
    get_or_create cats
      (match parent_ with Some p => full_path p +:+ "/" +:+ name_ | None => name_ end)
      name_ code_ parent_ level_ = Some (category, created, cats') /\
    well_formed cats' /\ kept cats cats' /\ In category cats'.
Proof.
  intros Hwf Hp. pose proof Hwf as [Hids [Hpaths Hlinks]].
  unfold get_or_create.
  set (fp := match parent_ with Some p => full_path p +:+ "/" +:+ name_ | None => name_ end).
  destruct (List.filter (fun c => String.eqb (full_path c) fp) cats) as [|c [|c' rest]] eqn:Ef.
  - eexists _, true, _. split; [reflexivity|].
    split; [split; [|split]|split].
    + rewrite map_app. simpl.
      apply List.NoDup_app; [exact Hids | constructor; [intros []|constructor] |].
      intros x Hx [<-|[]]. revert Hx. apply next_category_id_fresh.
    + rewrite map_app. simpl.
      apply List.NoDup_app; [exact Hpaths | constructor; [intros []|constructor] |].
      intros x Hx [<-|[]]. revert Hx. now apply filter_full_path_nil.
    + intros c Hc. apply in_app_or in Hc as [Hc|[<-|[]]].
      * specialize (Hlinks c Hc). destruct (parent c); [|exact Hlinks].
        destruct Hlinks as [r [Hr Hrest]]. exists r. split; [apply in_or_app; now left | exact Hrest].
      * simpl. subst fp. destruct parent_ as [p|]; simpl; [|reflexivity].
        destruct Hp as [r [Hr Hrp]].
        destruct (same_row_columns _ _ Hrp) as (Hi & _ & _ & Hf).
        exists r. split; [apply in_or_app; now left|]. split; [exact Hi|]. now rewrite Hf.
    + intros c Hc. exists c. split; [apply in_or_app; now left | apply same_row_refl].
    + apply in_or_app. right. now left.
  - exists c, false, cats. split; [reflexivity|].
    split; [exact Hwf|]. split; [apply kept_refl|].
    assert (Hin : In c (List.filter (fun c => String.eqb (full_path c) fp) cats))
      by (rewrite Ef; now left).
    now apply List.filter_In in Hin as [Hin _].
  - exfalso. exact (filter_full_path_unique cats fp c c' rest Hpaths Ef).
Qed.

Lemma _process_excel_files_categories dry_run excel_files category self :
  categories (_process_excel_files dry_run excel_files category self) = categories self.
Proof.
  unfold _process_excel_files. revert self.
  induction excel_files as [|x l IH]; intros self; [reflexivity|].
  simpl. rewrite IH. destruct dry_run; [reflexivity|]. now destruct (snd x).
Qed.

Lemma scan_well_formed (path : Path) :
  is_directory path = true ->
  forall parent_ level_ self,
    well_formed (categories self) -> parent_ok (categories self) parent_ ->
    exists self', _scan_directory false path parent_ level_ self = Some self' /\
      well_formed (categories self') /\ kept (categories self) (categories self').
Proof.
  induction path as [name glob_xlsx | name entries glob_xlsx IH | |] using Path_induction;
    try discriminate; intros _ parent_ level_ self Hwf Hp.
  - exists self. simpl. split; [reflexivity|]. split; [exact Hwf | apply kept_refl].
  - cbn [_scan_directory].
    set (subdirs := order_by _ (flat_map _ entries)).
    assert (Hsub : forall a, In a subdirs ->
              exists e, In e entries /\ is_directory e = true /\ a = (e, _scan_directory false e))
      by (intros a; apply subdirs_In).
    clearbody subdirs.
    match goal with |- context [for_each ?b subdirs self] => set (body := b) end.
    destruct (for_each_invariant
                (fun s => well_formed (categories s) /\ parent_ok (categories s) parent_)
                (fun s s' => kept (categories s) (categories s'))
                body subdirs) with (s := self) as [self1 [E1 [[Hwf1 Hp1] Hk1]]].
    + intros s. apply kept_refl.
    + intros a b c. apply kept_trans.
    + intros a Ha s [Hs Hps].
      destruct (Hsub a Ha) as [e [He [Hd ->]]].
      rewrite List.Forall_forall in IH. specialize (IH e He Hd).
      unfold body. cbn [fst snd]. unfold _get_or_create_category.
      destruct (get_or_create_well_formed (categories s) (path_name e)
                  (_extract_code (path_name e)) parent_ level_ Hs Hps)
        as (c & created & cats' & Eg & Hwf' & Hk' & Hc).
      rewrite Eg. cbn [categories voters categories_created voters_created excel_files_processed].
      destruct ((match e with directory _ _ g => g | _ => false end) && negb false).
      * destruct (save_has_excel_well_formed cats' (set_has_excel c true) Hwf') as [Hwf2 Hk2].
        match goal with |- context [_scan_directory false e ?p ?l ?s0] =>
          destruct (IH p l s0) as [s' [Es [Hwfs Hks]]] end.
        -- exact Hwf2.
        -- destruct (Hk2 c Hc) as [c2 [Hc2 Hcc2]]. exists c2. split; [exact Hc2|].
           unfold same_row in *. rewrite <- Hcc2. reflexivity.
        -- exists s'. split; [exact Es|].
           assert (Hall : kept (categories s) (categories s')).
           { eapply kept_trans; [exact Hk'|]. eapply kept_trans; [exact Hk2 | exact Hks]. }
           split; [split; [exact Hwfs | eapply parent_ok_kept; eauto] | exact Hall].
      * match goal with |- context [_scan_directory false e ?p ?l ?s0] =>
          destruct (IH p l s0) as [s' [Es [Hwfs Hks]]] end.
        -- exact Hwf'.
        -- exists c. split; [exact Hc | apply same_row_refl].
        -- exists s'. split; [exact Es|].
           assert (Hall : kept (categories s) (categories s')).
           { eapply kept_trans; [exact Hk' | exact Hks]. }
           split; [split; [exact Hwfs | eapply parent_ok_kept; eauto] | exact Hall].
    + split; assumption.
    + rewrite E1.
      destruct (order_by _ _) as [|x l]; [|destruct parent_ as [p|]].
      * exists self1. auto.
      * eexists. split; [reflexivity|].
        rewrite _process_excel_files_categories. auto.
      * exists self1. auto.
Qed.

Lemma string_length_app (a b : string) :
  String.length (a +:+ b) = (String.length a + String.length b)%nat.
Proof.
  induction a as [|c a IH]; [reflexivity|].
  change (S (String.length (a +:+ b)) = S (String.length a + String.length b)).
  now rewrite IH.
Qed.

Lemma category_by_id_In cats c :
  List.NoDup (map cat_id cats) -> In c cats -> category_by_id cats (cat_id c) = Some c.
Proof.
  unfold category_by_id.
  induction cats as [|r l IH]; intros Hnd Hc; [contradiction|].
  simpl in Hnd. apply List.NoDup_cons_iff in Hnd as [Hr Hnd]. simpl.
  destruct Hc as [->|Hc].
  - now rewrite Z.eqb_refl.
  - destruct (cat_id r =? cat_id c) eqn:E.
    + apply Z.eqb_eq in E. exfalso. apply Hr. rewrite E. now apply in_map.
    + now apply IH.
Qed.

(** A well-formed table has no cycle: full paths grow along the child links. *)
Lemma well_formed_acyclic cats : well_formed cats -> acyclic cats.
Proof.
  intros [Hids [_ Hlinks]].
  apply (acyclic_of_rank cats
           (fun n => match category_by_id cats n with
                     | Some r => String.length (full_path r)
                     | None => 0%nat
                     end)).
  intros c p Hc Hpar. specialize (Hlinks c Hc). rewrite Hpar in Hlinks.
  destruct Hlinks as [r [Hr [<- Hf]]].
  rewrite (category_by_id_In cats r Hids Hr), (category_by_id_In cats c Hids Hc).
  rewrite Hf, !string_length_app. simpl. lia.
Qed.

Lemma well_formed_nil : well_formed [].
Proof.
  split; [constructor|]. split; [constructor|]. intros c [].
Qed.

(** X28. Importing a directory, after [--clear] or into a category table that
    spells a tree, never fails and leaves a table that spells a tree: full
    paths and identifiers are unique and every full path is the parent's full
    path, a slash and the folder name.  So the table has no cycle, and
    [get_category_descendants] finishes on each of its categories.  Without
    [--clear] every earlier category is kept, [has_excel] aside. *)
Theorem import_builds_tree (path : Path) (clear : bool)
    (cats : list Category) (table : list Voter) :
  is_directory path = true ->
  clear = true \/ well_formed cats ->
  exists self,
    handle (Some path) clear false cats table = Some self /\
    well_formed (categories self) /\
    acyclic (categories self) /\
    (clear = false -> kept cats (categories self)) /\
    forall c, In c (categories self) ->
      exists out,
        views.get_category_descendants (List.length (categories self)) (categories self) c
        = Some out.
Proof.
  intros Hd Hstart. unfold handle.
  set (start := {| categories := if clear && negb false then [] else cats;
                   voters := if clear && negb false then [] else table;
                   categories_created := 0; voters_created := 0;
                   excel_files_processed := 0 |}).
  assert (Hwf0 : well_formed (categories start)).
  { simpl. destruct clear; simpl; [apply well_formed_nil|].
    destruct Hstart as [Hc|Hwf]; [discriminate | exact Hwf]. }
  destruct (scan_well_formed path Hd None 0%nat start Hwf0 I) as [self [Es [Hwf Hk]]].
  exists self. split; [exact Es|]. split; [exact Hwf|].
  pose proof (well_formed_acyclic _ Hwf) as Hacyc.
  split; [exact Hacyc|]. split.
  - intros ->. exact Hk.
  - intros c Hc.
    apply (get_category_descendants_total (categories self) _ c Hacyc Hc). lia.
Qed.

Lemma import_builds_tree_witness :
  exists self,
    handle (Some folder_tree) true false [cat_A] [karim] = Some self /\
    well_formed (categories self) /\
    acyclic (categories self) /\
    (true = false -> kept [cat_A] (categories self)) /\
    forall c, In c (categories self) ->
      exists out,
        views.get_category_descendants (List.length (categories self)) (categories self) c
        = Some out.
Proof.
  apply (import_builds_tree folder_tree true [cat_A] [karim]).
  - reflexivity.
  - left. reflexivity.
Defined.

(** X29. A dry run on a directory writes nothing, with or without [--clear]:
    both tables are as before.  It counts one category for every folder it
    can list its way down to, whether that category exists or not, and it
    never counts an Excel file or a voter. *)
Theorem dry_run_writes_nothing (path : Path) (clear : bool)
    (cats : list Category) (table : list Voter) :
  is_directory path = true ->
  handle (Some path) clear true cats table =
    Some {| categories := cats; voters := table;
            categories_created := count_folders path;
            voters_created := 0;
            excel_files_processed := 0 |}.
Proof.
  intros Hd. unfold handle.
  rewrite Bool.andb_false_r.
  rewrite (dry_scan path Hd). reflexivity.
Qed.

Lemma dry_run_writes_nothing_witness :
  handle (Some folder_tree) true true [cat_A] [karim] =
    Some {| categories := [cat_A]; voters := [karim];
            categories_created := 3;
            voters_created := 0;
            excel_files_processed := 0 |}.
Proof.
  apply (dry_run_writes_nothing folder_tree true [cat_A] [karim]).
  reflexivity.
Defined.

End ImportCommand.

(** ** Ancestors and descendants *)

Section Ancestors.

Import Text models orm notions.

Variable cats : list Category.
Hypothesis Hwf : well_formed cats.

Lemma unique_cat_id a b : In a cats -> In b cats -> cat_id a = cat_id b -> a = b.
Proof.
  intros Ha Hb E. destruct Hwf as [Hids _].
  pose proof (category_by_id_In cats a Hids Ha) as Fa.
  pose proof (category_by_id_In cats b Hids Hb) as Fb.
  rewrite E in Fa. congruence.
Qed.

(** The last link of a path to a row is the parent link of that row. *)
Lemma reachable_last n c :
  In c cats -> reachable cats n (cat_id c) ->
  parent c = Some n \/ exists p, parent c = Some p /\ reachable cats n p.
Proof.
  intros Hc H. remember (cat_id c) as m eqn:Em.
  induction H as [n c0 Hin Hp | n c0 m Hin Hp Hr IH].
  - left. now rewrite (unique_cat_id c c0 Hc Hin (eq_sym Em)).
  - right. destruct (IH Em) as [Hpc|[p [Hpc Hnp]]].
    + exists (cat_id c0). split; [exact Hpc | now apply reach_child].
    + exists p. split; [exact Hpc | now apply (reach_step cats n c0 p)].
Qed.

Lemma above_parent a c :
  In a cats -> In c cats ->
  (reachable cats (cat_id a) (cat_id c) <->
   exists pk, parent c = Some pk /\ (cat_id a = pk \/ reachable cats (cat_id a) pk)).
Proof.
  intros Ha Hc. split.
  - intros H. apply (reachable_last _ c Hc) in H as [Hp|[p [Hp Hr]]]; eauto.
  - intros [pk [Hp [<-|Hr]]].
    + now apply reach_child.
    + now apply (reachable_snoc cats (cat_id a) pk c).
Qed.

Lemma ancestors_loop_spec (bottom : option Z) (fuel : nat) :
  forall current ancestors out,
    ancestors_loop fuel cats current ancestors = Some out ->
    (lineage current ancestors bottom -> lineage None out bottom) /\
    forall a, In a out <->
              In a ancestors \/
              (In a cats /\ exists pk, current = Some pk /\
                                       (cat_id a = pk \/ reachable cats (cat_id a) pk)).
Proof.
  induction fuel as [|fuel IH]; intros current ancestors out H.
  - destruct current as [pk|]; [discriminate|]. injection H as <-.
    split; [auto|]. intros a. split; [auto|].
    intros [Ha|[_ [pk [Hpk _]]]]; [exact Ha | discriminate].
  - destruct current as [pk|]; simpl in H.
    + destruct (List.find (fun c => cat_id c =? pk) cats) as [row|] eqn:Ef; [|discriminate].
      pose proof (find_some _ _ Ef) as [Hrow Hid]. apply Z.eqb_eq in Hid.
      destruct (IH _ _ _ H) as [Hlin Hmem]. split.
      * intros Hl. apply Hlin. simpl. rewrite Hid. auto.
      * intros a. rewrite Hmem. split.
        -- intros [[<-|Ha]|[Ha [pk' [Hp Hr]]]].
           ++ right. split; [exact Hrow|]. exists pk. auto.
           ++ now left.
           ++ right. split; [exact Ha|]. exists pk. split; [reflexivity|]. right.
              rewrite <- Hid. apply (above_parent a row Ha Hrow). eauto.
        -- intros [Ha|[Ha [pk' [Hp [Hr|Hr]]]]].
           ++ left. now right.
           ++ injection Hp as <-. left. left. apply unique_cat_id; auto. congruence.
           ++ injection Hp as <-. right. split; [exact Ha|].
              apply (above_parent a row Ha Hrow). now rewrite Hid.
    + injection H as <-. split; [auto|]. intros a. split; [auto|].
      intros [Ha|[_ [pk [Hpk _]]]]; [exact Ha | discriminate].
Qed.

Lemma ancestors_loop_total (fuel : nat) :
  forall current ancestors,
    match current with
    | None => True
    | Some pk => exists r, In r cats /\ cat_id r = pk /\
                           (String.length (full_path r) < fuel)%nat
    end ->
    exists out, ancestors_loop fuel cats current ancestors = Some out.
Proof.
  induction fuel as [|fuel IH]; intros current ancestors Hcur.
  - destruct current as [pk|]; [|simpl; eauto].
    destruct Hcur as [r [_ [_ Hlt]]]. lia.
  - destruct current as [pk|]; [|simpl; eauto].
    destruct Hcur as [r [Hr [Hid Hlt]]]. simpl.
    pose proof Hwf as [Hids [_ Hlinks]].
    pose proof (category_by_id_In cats r Hids Hr) as Ef. unfold category_by_id in Ef.
    rewrite Hid in Ef. rewrite Ef.
    apply IH. specialize (Hlinks r Hr).
    destruct (parent r) as [p|]; [|exact I].
    destruct Hlinks as [r' [Hr' [Hid' Hf]]].
    exists r'. split; [exact Hr'|]. split; [exact Hid'|].
    rewrite Hf, !string_length_app in Hlt. simpl in Hlt. lia.
Qed.

Lemma ancestors_loop_fuel (fuel fuel' : nat) :
  (fuel <= fuel')%nat ->
  forall current ancestors out,
    ancestors_loop fuel cats current ancestors = Some out ->
    ancestors_loop fuel' cats current ancestors = Some out.
Proof.
  revert fuel'. induction fuel as [|fuel IH]; intros fuel' Hle current ancestors out H.
  - destruct current; [discriminate|]. destruct fuel'; exact H.
  - destruct current as [pk|]; [|destruct fuel'; exact H].
    destruct fuel' as [|fuel']; [lia|]. simpl in *.
    destruct (List.find _ cats); [|discriminate].
    apply (IH fuel'); [lia | exact H].
Qed.

(** X30. In a category table that spells a tree, [get_ancestors] finishes:
    as many rounds as the full path has characters are enough, and more
    give the same list.  The list runs from a root down to the parent of the
    category, each row the parent of the next.  A category is in it exactly
    when [get_category_descendants] of that category lists the one asked
    about. *)
Theorem get_ancestors_descendants (c : Category) :
  In c cats ->
  exists ancestors,
    (forall fuel, (String.length (full_path c) <= fuel)%nat ->
                  get_ancestors fuel cats c = Some ancestors) /\
    lineage None ancestors (parent c) /\
    forall a, In a cats ->
      (In a ancestors <->
       exists out,
         views.get_category_descendants (List.length cats) cats a = Some out /\
         In (cat_id c) out).
Proof.
  intros Hc. unfold get_ancestors.
  destruct (ancestors_loop_total (String.length (full_path c)) (parent c) []) as [out Hout].
  { pose proof Hwf as [_ [_ Hlinks]]. specialize (Hlinks c Hc).
    destruct (parent c) as [p|]; [|exact I].
    destruct Hlinks as [r [Hr [Hid Hf]]].
    exists r. split; [exact Hr|]. split; [exact Hid|].
    rewrite Hf, !string_length_app. simpl. lia. }
  exists out. split; [|split].
  - intros fuel Hfuel. now apply (ancestors_loop_fuel _ fuel Hfuel).
  - destruct (ancestors_loop_spec (parent c) _ _ _ _ Hout) as [Hlin _].
    apply Hlin. reflexivity.
  - intros a Ha.
    destruct (ancestors_loop_spec (parent c) _ _ _ _ Hout) as [_ Hmem].
    destruct (get_category_descendants_total cats (List.length cats) a
                (well_formed_acyclic cats Hwf) Ha (le_n _)) as [desc Hdesc].
    pose proof (get_category_descendants_spec cats _ a desc Hdesc (cat_id c)) as Hspec.
    rewrite Hmem. split.
    + intros [[]|[_ Hp]]. exists desc. split; [exact Hdesc|].
      apply Hspec. now apply (above_parent a c Ha Hc).
    + intros [out' [Eo Hin]]. right. split; [exact Ha|].
      apply (above_parent a c Ha Hc). apply Hspec. congruence.
Qed.

End Ancestors.

Lemma well_formed_tree_ABC : notions.well_formed tree_ABC.
Proof.
  split; [|split].
  - repeat constructor; simpl; intuition congruence.
  - repeat constructor; simpl; intuition congruence.
  - intros c [<-|[<-|[<-|[]]]]; simpl.
    + reflexivity.
    + exists cat_A. simpl. auto.
    + exists cat_B. simpl. auto 6.
Qed.

Lemma get_ancestors_descendants_witness :
  exists ancestors,
    (forall fuel, (String.length (models.full_path cat_C) <= fuel)%nat ->
                  models.get_ancestors fuel tree_ABC cat_C = Some ancestors) /\
    notions.lineage None ancestors (models.parent cat_C) /\
    forall a, In a tree_ABC ->
      (In a ancestors <->
       exists out,
         views.get_category_descendants (List.length tree_ABC) tree_ABC a = Some out /\
         In (models.cat_id cat_C) out).
Proof.
  apply (get_ancestors_descendants tree_ABC well_formed_tree_ABC cat_C).
  simpl. auto.
Defined.
